(** * crude-oil-bot: the RSI calculator and the crossover check of [bot_twelve.py]

    The script fetches hourly candles, computes Wilder's RSI over the closing
    prices with pandas, and posts a Telegram message when the last two RSI
    values cross the 30 or the 80 level.

    Numbers.  Python floats are IEEE 754 doubles.  The development keeps the
    special values the script's behaviour depends on (NaN, the two infinities,
    the two signed zeros) with their IEEE rules, and computes on the remaining
    finite values exactly, as rationals: rounding, overflow and underflow of
    finite results are not modelled.

    pandas.  [Series.diff], [Series.where], the element-wise operators and
    [ewm(com, adjust=False).mean()] are library code; they are embedded from
    their documented behaviour on a Series with the default integer index. *)

From Stdlib Require Import ZArith QArith Qreduction Bool Lia Lqa.
From stdpp Require Import base option list strings gmap.

Local Open Scope Z_scope.

(** ** Floating-point values *)

Module Float.

Inductive float : Type :=
| NaN
| Inf (neg : bool)
| Zero (neg : bool)
| Fin (neg : bool) (num den : positive).

(** The rational a finite value stands for (both zeros stand for 0). *)
Definition toQ (x : float) : Q :=
  match x with
  | Fin false n d => Zpos n # d
  | Fin true n d => Zneg n # d
  | _ => 0%Q
  end.

(** The finite value of a rational, in lowest terms; an exact zero result is
    [+0], as in round-to-nearest. *)
Definition of_Q (q : Q) : float :=
  match Qnum (Qred q) with
  | Z0 => Zero false
  | Zpos n => Fin false n (Qden (Qred q))
  | Zneg n => Fin true n (Qden (Qred q))
  end.

Definition of_Z (z : Z) : float := of_Q (inject_Z z).

Definition sign (x : float) : bool :=
  match x with
  | NaN => false
  | Inf s | Zero s | Fin s _ _ => s
  end.

Definition is_nan (x : float) : bool :=
  match x with NaN => true | _ => false end.

Definition is_zero (x : float) : bool :=
  match x with Zero _ => true | _ => false end.

Definition fneg (x : float) : float :=
  match x with
  | NaN => NaN
  | Inf s => Inf (negb s)
  | Zero s => Zero (negb s)
  | Fin s n d => Fin (negb s) n d
  end.

Definition fadd (x y : float) : float :=
  match x, y with
  | NaN, _ | _, NaN => NaN
  | Inf sx, Inf sy => if Bool.eqb sx sy then x else NaN
  | Inf _, _ => x
  | _, Inf _ => y
  | Zero sx, Zero sy => if Bool.eqb sx sy then x else Zero false
  | Zero _, _ => y
  | _, Zero _ => x
  | Fin _ _ _, Fin _ _ _ => of_Q (toQ x + toQ y)
  end.

Definition fsub (x y : float) : float := fadd x (fneg y).

Definition fmul (x y : float) : float :=
  match x, y with
  | NaN, _ | _, NaN => NaN
  | Inf _, Zero _ | Zero _, Inf _ => NaN
  | Inf sx, _ | _, Inf sx => Inf (xorb (sign x) (sign y))
  | Zero _, _ | _, Zero _ => Zero (xorb (sign x) (sign y))
  | Fin _ _ _, Fin _ _ _ => of_Q (toQ x * toQ y)
  end.

(** numpy division (pandas divides Series with it): a zero divisor gives an
    infinity or NaN, never an exception. *)
Definition fdiv (x y : float) : float :=
  match x, y with
  | NaN, _ | _, NaN => NaN
  | Inf _, Inf _ => NaN
  | Zero _, Zero _ => NaN
  | Inf _, _ => Inf (xorb (sign x) (sign y))
  | _, Inf _ => Zero (xorb (sign x) (sign y))
  | _, Zero _ => Inf (xorb (sign x) (sign y))
  | Zero _, _ => Zero (xorb (sign x) (sign y))
  | Fin _ _ _, Fin _ _ _ => of_Q (toQ x / toQ y)
  end.

(** Comparison: [None] when an operand is NaN (every ordered comparison is
    then false); the two zeros compare equal. *)
Definition fcompare (x y : float) : option comparison :=
  match x, y with
  | NaN, _ | _, NaN => None
  | Inf sx, Inf sy =>
      Some (if sx then (if sy then Eq else Lt) else (if sy then Gt else Eq))
  | Inf sx, _ => Some (if sx then Lt else Gt)
  | _, Inf sy => Some (if sy then Gt else Lt)
  | _, _ => Some (toQ x ?= toQ y)%Q
  end.

Definition flt (x y : float) : bool :=
  match fcompare x y with Some Lt => true | _ => false end.
Definition fle (x y : float) : bool :=
  match fcompare x y with Some Lt | Some Eq => true | _ => false end.
Definition fgt (x y : float) : bool := flt y x.
Definition fge (x y : float) : bool := fle y x.

End Float.

Export Float.

Declare Scope float_scope.
Delimit Scope float_scope with F.
Bind Scope float_scope with float.
Infix "+" := fadd : float_scope.
Infix "-" := fsub : float_scope.
Infix "*" := fmul : float_scope.
Infix "/" := fdiv : float_scope.
Notation "- x" := (fneg x) : float_scope.
Infix "<?" := flt : float_scope.
Infix "<=?" := fle : float_scope.
Infix ">?" := fgt : float_scope.
Infix ">=?" := fge : float_scope.

Definition f0 : float := Zero false.
Definition f1 : float := Fin false 1 1.
Definition f30 : float := Fin false 30 1.
Definition f80 : float := Fin false 80 1.
Definition f100 : float := Fin false 100 1.

(** ** pandas Series operations used by the script *)

Module Series.

(** [s.diff()]: first element NaN, then [s[i] - s[i-1]]. *)
Definition diff (s : list float) : list float :=
  match s with
  | [] => []
  | _ :: t => NaN :: zip_with fsub t s
  end.

(** [s > c] and [s < c] against a scalar: a boolean Series. *)
Definition gt_scalar (s : list float) (c : float) : list bool :=
  (fun x => x >? c)%F <$> s.
Definition lt_scalar (s : list float) (c : float) : list bool :=
  (fun x => x <? c)%F <$> s.

(** [s.where(cond, other)]: keep [s[i]] where [cond[i]], else [other]. *)
Definition where_ (s : list float) (cond : list bool) (other : float)
  : list float :=
  zip_with (fun x (b : bool) => if b then x else other) s cond.

(** unary minus *)
Definition neg (s : list float) : list float := fneg <$> s.

(** One step of the recursive (adjust=False) exponentially weighted mean:
    [y_t = (1 - alpha) * y_{t-1} + alpha * x_t]. *)
Definition ewm_step (alpha y x : float) : float :=
  ((f1 - alpha) * y + alpha * x)%F.

Fixpoint ewm_from (alpha y : float) (xs : list float) : list float :=
  match xs with
  | [] => []
  | x :: t => let y' := ewm_step alpha y x in y' :: ewm_from alpha y' t
  end.

(** [s.ewm(com=com, adjust=False).mean()]: [alpha = 1 / (1 + com)],
    [y_0 = x_0].  (pandas skips NaN observations; the script only passes
    Series without NaN, see [gain_loss_no_nan].) *)
Definition ewm_mean (com : float) (s : list float) : list float :=
  let alpha := (f1 / (f1 + com))%F in
  match s with
  | [] => []
  | x0 :: t => x0 :: ewm_from alpha x0 t
  end.

(** Series / Series, scalar + Series, scalar / Series, scalar - Series. *)
Definition div (a b : list float) : list float := zip_with fdiv a b.
Definition radd (c : float) (s : list float) : list float := fadd c <$> s.
Definition rdiv (c : float) (s : list float) : list float := fdiv c <$> s.
Definition rsub (c : float) (s : list float) : list float := fsub c <$> s.

End Series.

(** ** [calculate_rsi] *)

(** [com = period - 1]; pandas rejects [com < 0], so the period ranges over
    the positive integers. *)
Definition com_of (period : positive) : float := of_Z (Zpos period - 1).

Definition rsi_delta (series : list float) : list float := Series.diff series.

Definition rsi_gain (series : list float) : list float :=
  let delta := rsi_delta series in
  Series.where_ delta (Series.gt_scalar delta f0) f0.

Definition rsi_loss (series : list float) : list float :=
  let delta := rsi_delta series in
  Series.neg (Series.where_ delta (Series.lt_scalar delta f0) f0).

Definition rsi_avg_gain (series : list float) (period : positive) : list float :=
  Series.ewm_mean (com_of period) (rsi_gain series).

Definition rsi_avg_loss (series : list float) (period : positive) : list float :=
  Series.ewm_mean (com_of period) (rsi_loss series).

Definition rsi_rs (series : list float) (period : positive) : list float :=
  Series.div (rsi_avg_gain series period) (rsi_avg_loss series period).

Definition calculate_rsi (series : list float) (period : positive) : list float :=
  let delta := Series.diff series in
  let gain := Series.where_ delta (Series.gt_scalar delta f0) f0 in
  let loss := Series.neg (Series.where_ delta (Series.lt_scalar delta f0) f0) in
  let avg_gain := Series.ewm_mean (com_of period) gain in
  let avg_loss := Series.ewm_mean (com_of period) loss in
  let rs := Series.div avg_gain avg_loss in
  let rsi := Series.rsub f100 (Series.rdiv f100 (Series.radd f1 rs)) in
  rsi.

(** ** The script's effects

    A run leaves a trace of what it printed and which HTTP requests it made,
    and ends normally or with an exception. *)

Inductive exn : Type :=
| RequestException (msg : string)   (* requests: network failure, bad JSON *)
| KeyError
| ValueError
| IndexError
| SystemExit (code : Z).

(** [SystemExit] derives from [BaseException], not from [Exception]. *)
Definition is_Exception (e : exn) : bool :=
  match e with SystemExit _ => false | _ => true end.

Inductive decision : Type := BUY | SELL | NONE.

(** The Markdown text of an alert: its kind, and the RSI and price it quotes
    (both printed with two decimals). *)
Record alert_text : Type := AlertText {
  alert_kind : decision;
  alert_rsi : float;
  alert_price : float
}.

Inductive line : Type :=
| MissingEnvLine                      (* "Error: Missing environment variables (...)." *)
| FetchingLine                        (* "Fetching data for WTI/USD from TwelveData..." *)
| ErrorFetchingLine (msg : string)    (* "Error fetching data: {msg}" *)
| ApiRequestFailedLine (e : exn)      (* "API Request Failed: {e}" *)
| NoDataLine                          (* "No data received." *)
| AnalyzedLine (prev curr : float)    (* "Analyzed WTI/USD: Prev RSI=..., Curr RSI=..." *)
| BuySentLine                         (* "Buy Alert Sent" *)
| SellSentLine                        (* "Sell Alert Sent" *)
| NoCrossoverLine                     (* "No crossover detected." *)
| SendFailedLine (e : exn).           (* "Failed to send message: {e}" *)

Inductive event : Type :=
| Print (l : line)
| HttpGet (symbol interval apikey : string) (outputsize : Z)
| HttpPost (bot_token chat_id : string) (text : alert_text).

Definition is_network (ev : event) : bool :=
  match ev with Print _ => false | _ => true end.

(** The alert texts a trace posted, in order. *)
Definition posted (t : list event) : list alert_text :=
  omap (fun ev => match ev with HttpPost _ _ m => Some m | _ => None end) t.

Definition M (A : Type) : Type := (list event * (exn + A))%type.

Definition ret {A} (a : A) : M A := ([], inr a).
Definition bind {A B} (m : M A) (f : A -> M B) : M B :=
  match m with
  | (t, inl e) => (t, inl e)
  | (t, inr a) => let '(t', r) := f a in (t ++ t', r)
  end.
Definition emit (ev : event) : M unit := ([ev], inr tt).
Definition raise {A} (e : exn) : M A := ([], inl e).
Definition print (l : line) : M unit := emit (Print l).

(** [try: body except Exception as e: handler e] *)
Definition try_except {A} (body : M A) (handler : exn -> M A) : M A :=
  match body with
  | (t, inl e) =>
      if is_Exception e then let '(t', r) := handler e in (t ++ t', r)
      else (t, inl e)
  | ok => ok
  end.

Declare Scope py_scope.
Delimit Scope py_scope with py.
Notation "x <- m ;; k" := (bind m (fun x => k))
  (at level 100, m at next level, right associativity) : py_scope.
Notation "m ;;; k" := (bind m (fun _ => k))
  (at level 100, right associativity) : py_scope.

Definition trace {A} (m : M A) : list event := fst m.
Definition result {A} (m : M A) : exn + A := snd m.

(** ** Configuration and the outside world *)

Definition SYMBOL : string := "WTI/USD".
Definition INTERVAL : string := "1h".
Definition RSI_PERIOD : positive := 14.

(** One record of the provider's [values] list; a field is [None] when its
    text is not a number ([pd.to_numeric] raises on it). *)
Record raw_candle : Type := RawCandle {
  raw_open : option float;
  raw_high : option float;
  raw_low : option float;
  raw_close : option float
}.

(** The decoded JSON object, through the two keys the script reads. *)
Record json : Type := Json {
  json_values : option (list raw_candle);
  json_message : option string
}.

Record world : Type := World {
  environ : gmap string string;
  (** what [requests.get(...).json()] does: raise, or return the object *)
  get_reply : exn + json;
  (** whether [requests.post] raises *)
  post_reply : option exn
}.

Record candle : Type := Candle {
  c_open : float;
  c_high : float;
  c_low : float;
  c_close : float
}.

(** A data frame is the list of its rows, one candle per row with the four
    numeric columns; [df['close']] is the column of closing prices. *)
Definition close_column (df : list candle) : list float := c_close <$> df.

(** Python truthiness of [os.environ.get(name)]: [None] and the empty string
    are both false. *)
Definition truthy (v : option string) : bool :=
  match v with
  | None => false
  | Some s => negb (String.eqb s "")
  end.

(** [s.iloc[k]] with Python's negative indices; out of range raises. *)
Definition iloc {A} (s : list A) (k : Z) : M A :=
  let n := Z.of_nat (length s) in
  let i := if k <? 0 then n + k else k in
  if (0 <=? i) && (i <? n) then
    match s !! Z.to_nat i with
    | Some x => ret x
    | None => raise IndexError
    end
  else raise IndexError.

Definition to_numeric (r : raw_candle) : option candle :=
  o ← raw_open r; h ← raw_high r; l ← raw_low r; c ← raw_close r;
  Some (Candle o h l c).

Section Script.

Variable w : world.

Local Open Scope py_scope.

Definition BOT_TOKEN : option string := environ w !! "BOT_TOKEN".
Definition CHAT_ID : option string := environ w !! "CHAT_ID".
Definition API_KEY : option string := environ w !! "API_KEY".

(** Lines 16-18: the start-up check of the three secrets. *)
Definition check_configuration : M unit :=
  if negb (truthy BOT_TOKEN) || negb (truthy CHAT_ID) || negb (truthy API_KEY)
  then print MissingEnvLine ;;; raise (SystemExit 1)
  else ret tt.

Definition send_telegram_message (message : alert_text) : M unit :=
  try_except
    (emit (HttpPost (default "" BOT_TOKEN) (default "" CHAT_ID) message) ;;;
     match post_reply w with
     | Some e => raise e
     | None => ret tt
     end)
    (fun e => print (SendFailedLine e)).

Definition get_twelvedata_price : M (option (list candle)) :=
  try_except
    (emit (HttpGet SYMBOL INTERVAL (default "" API_KEY) 50) ;;;
     data <- match get_reply w with
             | inl e => raise e
             | inr d => ret d
             end ;;
     match json_values data with
     | None =>
         print (ErrorFetchingLine (default "Unknown error" (json_message data))) ;;;
         ret None
     | Some values =>
         (* pd.DataFrame([]) has no columns: df[cols] raises KeyError *)
         _ <- (if decide (values = []) then raise KeyError else ret tt) ;;
         (* df[cols].apply(pd.to_numeric) *)
         df <- match mapM to_numeric values with
               | None => raise ValueError
               | Some rows => ret rows
               end ;;
         (* df.iloc[::-1].reset_index(drop=True) *)
         ret (Some (reverse df))
     end)
    (fun e => print (ApiRequestFailedLine e) ;;; ret None).

Definition buy_rule (prev_rsi current_rsi : float) : bool :=
  (prev_rsi <=? f30)%F && (current_rsi >? f30)%F.

Definition sell_rule (prev_rsi current_rsi : float) : bool :=
  (prev_rsi >=? f80)%F && (current_rsi <? f80)%F.

(** Lines 103-115: the if / elif / else on the last two RSI values. *)
Definition crossover (prev_rsi current_rsi current_price : float) : M unit :=
  if buy_rule prev_rsi current_rsi then
    send_telegram_message (AlertText BUY current_rsi current_price) ;;;
    print BuySentLine
  else if sell_rule prev_rsi current_rsi then
    send_telegram_message (AlertText SELL current_rsi current_price) ;;;
    print SellSentLine
  else
    print NoCrossoverLine.

(** Lines 88-115: what [check_market] does with the fetched frame. *)
Definition analyze (df : option (list candle)) : M unit :=
  match df with
  | None => print NoDataLine
  | Some [] => print NoDataLine
  | Some df =>
      let rsi := calculate_rsi (close_column df) RSI_PERIOD in
      current_rsi <- iloc rsi (-1) ;;
      prev_rsi <- iloc rsi (-2) ;;
      current_price <- iloc (close_column df) (-1) ;;
      print (AnalyzedLine prev_rsi current_rsi) ;;;
      crossover prev_rsi current_rsi current_price
  end.

Definition check_market : M unit :=
  print FetchingLine ;;;
  df <- get_twelvedata_price ;;
  analyze df.

(** The module body followed by [check_market()] under [__main__]. *)
Definition script : M unit :=
  check_configuration ;;;
  check_market.

End Script.

(** The exit status of the interpreter: 0 after a normal end, the code of a
    [SystemExit], 1 after any other uncaught exception. *)
Definition exit_code (r : exn + unit) : Z :=
  match r with
  | inr _ => 0
  | inl (SystemExit c) => c
  | inl _ => 1
  end.

Definition run (w : world) : list event * Z :=
  (trace (script w), exit_code (result (script w))).

(** ** [calculate_rsi] on Series objects

    A pandas Series is a mutable object and [calculate_rsi] receives a
    reference to it.  Here every object lives in a store; each pandas call of
    [calculate_rsi] reads its operands and allocates its result. *)

Module Store.

Inductive obj : Type :=
| FloatSeries (v : list float)
| BoolSeries (v : list bool).

Definition St (A : Type) : Type := gmap positive obj -> gmap positive obj * A.

Definition st_ret {A} (a : A) : St A := fun h => (h, a).
Definition st_bind {A B} (m : St A) (f : A -> St B) : St B :=
  fun h => let '(h', a) := m h in f a h'.

Definition alloc (o : obj) : St positive :=
  fun h => let l := fresh (dom h) in (<[l := o]> h, l).

Definition floats_at (h : gmap positive obj) (l : positive) : list float :=
  match h !! l with Some (FloatSeries v) => v | _ => [] end.
Definition bools_at (h : gmap positive obj) (l : positive) : list bool :=
  match h !! l with Some (BoolSeries v) => v | _ => [] end.

Definition read_floats (l : positive) : St (list float) :=
  fun h => (h, floats_at h l).
Definition read_bools (l : positive) : St (list bool) :=
  fun h => (h, bools_at h l).

Declare Scope st_scope.
Delimit Scope st_scope with st.
Notation "x <- m ;; k" := (st_bind m (fun x => k))
  (at level 100, m at next level, right associativity) : st_scope.

Local Open Scope st_scope.

Definition unary (f : list float -> list float) (l : positive) : St positive :=
  v <- read_floats l ;; alloc (FloatSeries (f v)).

Definition s_diff : positive -> St positive := unary Series.diff.
Definition s_neg : positive -> St positive := unary Series.neg.
Definition s_ewm_mean (com : float) : positive -> St positive :=
  unary (Series.ewm_mean com).
Definition s_radd (c : float) : positive -> St positive := unary (Series.radd c).
Definition s_rdiv (c : float) : positive -> St positive := unary (Series.rdiv c).
Definition s_rsub (c : float) : positive -> St positive := unary (Series.rsub c).

Definition s_gt (l : positive) (c : float) : St positive :=
  v <- read_floats l ;; alloc (BoolSeries (Series.gt_scalar v c)).
Definition s_lt (l : positive) (c : float) : St positive :=
  v <- read_floats l ;; alloc (BoolSeries (Series.lt_scalar v c)).
Definition s_where (l cond : positive) (other : float) : St positive :=
  v <- read_floats l ;; b <- read_bools cond ;;
  alloc (FloatSeries (Series.where_ v b other)).
Definition s_div (a b : positive) : St positive :=
  x <- read_floats a ;; y <- read_floats b ;;
  alloc (FloatSeries (Series.div x y)).

Definition calculate_rsi (series : positive) (period : positive) : St positive :=
  delta <- s_diff series ;;
  pos <- s_gt delta f0 ;;
  gain <- s_where delta pos f0 ;;
  negv <- s_lt delta f0 ;;
  kept <- s_where delta negv f0 ;;
  loss <- s_neg kept ;;
  avg_gain <- s_ewm_mean (com_of period) gain ;;
  avg_loss <- s_ewm_mean (com_of period) loss ;;
  rs <- s_div avg_gain avg_loss ;;
  t1 <- s_radd f1 rs ;;
  t2 <- s_rdiv f100 t1 ;;
  rsi <- s_rsub f100 t2 ;;
  st_ret rsi.

(** [post] holds of the store and the value a computation ends with. *)
Definition wp {A} (m : St A) (h : gmap positive obj)
    (post : gmap positive obj -> A -> Prop) : Prop :=
  post (fst (m h)) (snd (m h)).

End Store.

(** ** The calculator as the specification words it

    Index by index: [delta[i] = close[i] - close[i-1]] for [i >= 1] and
    undefined (NaN) at 0; [gain = max(delta, 0)], [loss = max(-delta, 0)],
    where an undefined operand is ignored; the recursive average seeded with
    its first value; and the RSI formula. *)

Module Reference.

Definition at_ (close : list float) (i : nat) : float :=
  default NaN (close !! i).

Definition delta (close : list float) (i : nat) : float :=
  match i with
  | O => NaN
  | S j => (at_ close i - at_ close j)%F
  end.

Definition max (a b : float) : float := if (a >? b)%F then a else b.

Definition gain (close : list float) (i : nat) : float :=
  max (delta close i) f0.
Definition loss (close : list float) (i : nat) : float :=
  max (- delta close i)%F f0.

Definition alpha (P : positive) : float := of_Q (1 # P).

Fixpoint avg (a : float) (value : nat -> float) (i : nat) : float :=
  match i with
  | O => value O
  | S j => (a * value i + (f1 - a) * avg a value j)%F
  end.

Definition rsi (close : list float) (P : positive) (i : nat) : float :=
  (f100 - f100 / (f1 + avg (alpha P) (gain close) i
                        / avg (alpha P) (loss close) i))%F.

End Reference.

(** ** Derived notions used in the statements *)

(** The RSI at one index from the two averages there. *)
Definition rsi_point (g l : float) : float :=
  (f100 - f100 / (f1 + g / l))%F.

Definition alpha_of (com : float) : float := (f1 / (f1 + com))%F.

Fixpoint monotone (r : float -> float -> bool) (s : list float) : bool :=
  match s with
  | a :: t => match t with
              | b :: _ => r a b && monotone r t
              | [] => true
              end
  | [] => true
  end.

Definition increasing (s : list float) : bool := monotone fle s.
Definition decreasing (s : list float) : bool := monotone fge s.

(** The decision a run of the crossover block took, read off its trace. *)
Definition decision_of (t : list event) : decision :=
  match posted t with
  | [] => NONE
  | m :: _ => alert_kind m
  end.

(** All three secrets set to a non-empty value. *)
Definition configured (w : world) : bool :=
  truthy (BOT_TOKEN w) && truthy (CHAT_ID w) && truthy (API_KEY w).

(** Equal, or both a zero (of either sign). *)
Definition zsim (x y : float) : Prop :=
  x = y \/ (is_zero x = true /\ is_zero y = true).

Definition succeeds {A} (m : M A) : bool :=
  match result m with inr _ => true | inl _ => false end.

(** The three ways the fetch fails, with the diagnostic each one prints:
    [requests.get] or [.json()] raises; the object has no [values] key; the
    [values] list is empty. *)
Inductive fetch_failure (w : world) : line -> Prop :=
| fetch_raises (e : exn) :
    get_reply w = inl e -> is_Exception e = true ->
    fetch_failure w (ApiRequestFailedLine e)
| fetch_no_values (msg : option string) :
    get_reply w = inr (Json None msg) ->
    fetch_failure w (ErrorFetchingLine (default "Unknown error" msg))
| fetch_empty (msg : option string) :
    get_reply w = inr (Json (Some []) msg) ->
    fetch_failure w (ApiRequestFailedLine KeyError).

(** What the claim on the configuration check says, word for word: a missing
    variable aborts with the diagnostic and exit code 1; three variables that
    are present do not. *)
Definition configuration_claim : Prop :=
  forall w : world,
    (BOT_TOKEN w = None \/ CHAT_ID w = None \/ API_KEY w = None ->
     run w = ([Print MissingEnvLine], 1))
    /\ (is_Some (BOT_TOKEN w) /\ is_Some (CHAT_ID w) /\ is_Some (API_KEY w) ->
        check_configuration w = ret tt).

Definition prices (l : list Z) : list float := of_Z <$> l.

Definition flat (z : Z) : raw_candle :=
  RawCandle (Some (of_Z z)) (Some (of_Z z)) (Some (of_Z z)) (Some (of_Z z)).

Definition env3 (a b c : string) : gmap string string :=
  <["BOT_TOKEN" := a]> (<["CHAT_ID" := b]> (<["API_KEY" := c]> ∅)).

(** ** Further notions: ranges of values, shapes of a run *)

Definition is_finite (x : float) : bool :=
  match x with Zero _ | Fin _ _ _ => true | _ => false end.

(** NaN, a zero of either sign, or a positive value (finite or infinite). *)
Definition nonneg_or_nan (x : float) : bool :=
  match x with
  | NaN | Zero _ => true
  | Inf s | Fin s _ _ => negb s
  end.

(** A zero of either sign or a positive finite value. *)
Definition finite_nonneg (x : float) : bool :=
  match x with
  | Zero _ => true
  | Fin s _ _ => negb s
  | _ => false
  end.

Definition finite_pos (x : float) : bool :=
  match x with Fin false _ _ => true | _ => false end.

(** [0 <= r <= 100] as Python compares floats. *)
Definition in_range (r : float) : bool := (f0 <=? r)%F && (r <=? f100)%F.

(** Python's [==] on floats. *)
Definition feqb (a b : float) : bool :=
  match fcompare a b with Some Eq => true | _ => false end.

(** Every price equals the one before it. *)
Definition steady (s : list float) : bool := monotone feqb s.


Definition all_finite (s : list float) : bool := forallb is_finite s.

(** The HTTP requests of a trace, in order. *)
Definition requests (t : list event) : list event := List.filter is_network t.

(** The failure a trace reports for a send, if any. *)
Definition printed_failure (t : list event) : option exn :=
  head (omap (fun ev => match ev with
                        | Print (SendFailedLine e) => Some e
                        | _ => None
                        end) t).

(** What [requests] raises, when it raises, is an [Exception]. *)
Definition raises_only_exceptions (w : world) : bool :=
  match get_reply w with inl e => is_Exception e | inr _ => true end
  && match post_reply w with Some e => is_Exception e | None => true end.

(** The rows the provider sent, when there are some and all are numeric. *)
Definition fetched_rows (w : world) : option (list candle) :=
  match get_reply w with
  | inr (Json (Some (r :: rs)) _) => mapM to_numeric (r :: rs)
  | _ => None
  end.

(** ** Facts about the arithmetic *)

Section FloatFacts.

Local Open Scope Q_scope.

Lemma toQ_of_Q (q : Q) : toQ (of_Q q) == q.
Proof.
  unfold of_Q. pose proof (Qred_correct q) as H.
  destruct (Qred q) as [n d]. destruct n; simpl; try exact H.
  rewrite <- H. unfold Qeq. reflexivity.
Qed.

Lemma of_Q_proper (p q : Q) : p == q -> of_Q p = of_Q q.
Proof. intros H. unfold of_Q. now rewrite (Qred_complete p q H). Qed.

Lemma toQ_fneg (x : float) : toQ (fneg x) == - toQ x.
Proof. destruct x as [| s | s | [] n d]; reflexivity. Qed.

Lemma Qnum_sign (n : Z) (d : positive) :
  ((n # d == 0) <-> n = 0%Z) /\ ((0 < n # d) <-> (0 < n)%Z)
  /\ ((n # d < 0) <-> (n < 0)%Z).
Proof. unfold Qeq, Qlt; simpl. lia. Qed.

(** [of_Q] lands on [+0] or on a finite value of the sign of the rational. *)
Lemma of_Q_cases (q : Q) :
  (q == 0 /\ of_Q q = Zero false)
  \/ (0 < q /\ exists n d, of_Q q = Fin false n d)
  \/ (q < 0 /\ exists n d, of_Q q = Fin true n d).
Proof.
  unfold of_Q. pose proof (Qred_correct q) as H.
  destruct (Qred q) as [n d]. simpl.
  destruct (Qnum_sign n d) as (Hz & Hp & Hn).
  destruct n as [| n | n].
  - left. split; [rewrite <- H; now apply Hz | reflexivity].
  - right; left. split; [rewrite <- H; apply Hp; lia | eauto].
  - right; right. split; [rewrite <- H; apply Hn; lia | eauto].
Qed.

Lemma fcompare_of_Q (p q : Q) : fcompare (of_Q p) (of_Q q) = Some (p ?= q).
Proof.
  assert (E : fcompare (of_Q p) (of_Q q)
              = Some (toQ (of_Q p) ?= toQ (of_Q q))).
  { destruct (of_Q_cases p) as [[_ ->] | [[_ (n & d & ->)] | [_ (n & d & ->)]]];
    destruct (of_Q_cases q) as [[_ ->] | [[_ (m & e & ->)] | [_ (m & e & ->)]]];
    reflexivity. }
  rewrite E. now rewrite !toQ_of_Q.
Qed.

Lemma fadd_comm (x y : float) : (x + y = y + x)%F.
Proof.
  destruct x as [| [] | [] | s n d], y as [| [] | [] | s' n' d'];
    try reflexivity.
  simpl. apply of_Q_proper. ring.
Qed.

Lemma fsub_self_sign (x : float) :
  ((x - x >? f0) = false /\ (x - x <? f0) = false)%F.
Proof.
  destruct x as [| [] | [] | s n d]; try (split; reflexivity).
  unfold fsub. cbn [fneg fadd].
  assert (E : of_Q (toQ (Fin s n d) + toQ (Fin (negb s) n d)) = Zero false).
  { destruct (of_Q_cases (toQ (Fin s n d) + toQ (Fin (negb s) n d)))
      as [[_ H] | [[H _] | [H _]]]; [exact H | exfalso ..];
      pose proof (toQ_fneg (Fin s n d)) as Hn; cbn [fneg] in Hn;
      rewrite Hn in H; revert H; generalize (toQ (Fin s n d)); intros q H;
      assert (Hz : q + - q == 0) by ring; rewrite Hz in H;
      exact (Qlt_irrefl 0 H). }
  rewrite E. split; reflexivity.
Qed.

(** Ordered operands: the difference is never on the wrong side of zero. *)
Lemma fsub_le_not_neg (a b : float) :
  (a <=? b)%F = true -> (b - a <? f0)%F = false.
Proof.
  unfold fle, flt, fsub.
  destruct a as [| [] | sa | sa na da], b as [| [] | sb | sb nb db];
    try discriminate; try reflexivity.
  - destruct sa, sb; reflexivity.
  - cbn [fcompare fneg fadd]. intros H.
    destruct (toQ (Zero sa) ?= toQ (Fin sb nb db)) eqn:E; try discriminate;
    destruct (toQ (Fin sb nb db) ?= toQ f0) eqn:E'; try reflexivity;
    exfalso; rewrite <- Qcompare_antisym in E';
    change (toQ (Zero sa)) with (toQ f0) in E; rewrite E in E'; discriminate.
  - cbn [fcompare fneg fadd]. intros H.
    destruct (toQ (Fin (negb sa) na da) ?= toQ f0) eqn:E'; try reflexivity.
    exfalso. apply Qlt_alt in E'.
    pose proof (toQ_fneg (Fin sa na da)) as Hn. cbn [fneg] in Hn.
    rewrite Hn in E'.
    destruct (toQ (Fin sa na da) ?= toQ (Zero sb)) eqn:E; try discriminate.
    + apply Qeq_alt in E. rewrite E in E'. now apply Qlt_irrefl in E'.
    + apply Qlt_alt in E. change (toQ (Zero sb)) with 0 in E.
      change (toQ f0) with 0 in E'.
      apply (Qlt_irrefl 0). apply Qlt_trans with (- toQ (Fin sa na da)).
      * rewrite <- (Qplus_opp_r (toQ (Fin sa na da))).
        rewrite <- (Qplus_0_l (- toQ (Fin sa na da))) at 2.
        apply Qplus_lt_le_compat; [exact E | apply Qle_refl].
      * exact E'.
  - cbn [fcompare fneg fadd]. intros H.
    assert (Hle : toQ (Fin sa na da) <= toQ (Fin sb nb db)).
    { apply Qle_alt. intros E. now rewrite E in H. }
    pose proof (toQ_fneg (Fin sa na da)) as Hn. cbn [fneg] in Hn.
    destruct (of_Q_cases (toQ (Fin sb nb db) + toQ (Fin (negb sa) na da)))
      as [[_ ->] | [[_ (n & d & ->)] | [Hlt _]]]; try reflexivity.
    exfalso. rewrite Hn in Hlt.
    apply (Qlt_irrefl 0). eapply Qle_lt_trans; [| exact Hlt].
    rewrite <- (Qplus_opp_r (toQ (Fin sa na da))).
    apply Qplus_le_compat; [exact Hle | apply Qle_refl].
Qed.

Lemma fsub_ge_not_pos (a b : float) :
  (a >=? b)%F = true -> (b - a >? f0)%F = false.
Proof.
  unfold fge, fgt, fle, flt, fsub, f0.
  destruct a as [| [] | sa | sa na da], b as [| [] | sb | sb nb db];
    try discriminate; try reflexivity.
  - destruct sa, sb; reflexivity.
  - cbn [fcompare fneg fadd]. intros H.
    destruct (toQ (Zero false) ?= toQ (Fin sb nb db)) eqn:E'; try reflexivity.
    exfalso. change (toQ (Zero sa)) with (toQ (Zero false)) in H.
    rewrite <- Qcompare_antisym, E' in H. simpl in H. discriminate.
  - cbn [fcompare fneg fadd]. intros H.
    destruct (toQ (Zero false) ?= toQ (Fin (negb sa) na da)) eqn:E'; try reflexivity.
    exfalso. apply Qlt_alt in E'.
    pose proof (toQ_fneg (Fin sa na da)) as Hn. cbn [fneg] in Hn.
    rewrite Hn in E'. change (toQ (Zero false)) with 0 in E'.
    change (toQ (Zero sb)) with 0 in H.
    assert (Hle : 0 <= toQ (Fin sa na da)).
    { apply Qle_alt. intros E. now rewrite E in H. }
    apply (Qlt_irrefl 0). eapply Qlt_le_trans; [exact E' |].
    rewrite <- (Qplus_opp_r (toQ (Fin sa na da))).
    rewrite <- (Qplus_0_l (- toQ (Fin sa na da))) at 1.
    apply Qplus_le_compat; [exact Hle | apply Qle_refl].
  - cbn [fcompare fneg fadd]. intros H.
    assert (Hle : toQ (Fin sb nb db) <= toQ (Fin sa na da)).
    { apply Qle_alt. intros E. now rewrite E in H. }
    pose proof (toQ_fneg (Fin sa na da)) as Hn. cbn [fneg] in Hn.
    destruct (of_Q_cases (toQ (Fin sb nb db) + toQ (Fin (negb sa) na da)))
      as [[_ ->] | [[Hlt _] | [_ (n & d & ->)]]]; try reflexivity.
    exfalso. rewrite Hn in Hlt.
    apply (Qlt_irrefl 0). eapply Qlt_le_trans; [exact Hlt |].
    rewrite <- (Qplus_opp_r (toQ (Fin sa na da))).
    apply Qplus_le_compat; [exact Hle | apply Qle_refl].
Qed.

End FloatFacts.

(** ** Facts about the Series operations *)

Section SeriesFacts.

Import Series.

Lemma where_fmap (f : float -> bool) (s : list float) (o : float) :
  where_ s (f <$> s) o = (fun x => if f x then x else o) <$> s.
Proof. induction s as [| x s IH]; [reflexivity |]. cbn. now f_equal. Qed.

Lemma length_diff (s : list float) : length (diff s) = length s.
Proof.
  destruct s as [| x t]; [reflexivity |]. cbn [diff length].
  rewrite length_zip_with. cbn [length]. lia.
Qed.

Lemma length_ewm_from (a y : float) (xs : list float) :
  length (ewm_from a y xs) = length xs.
Proof.
  revert y. induction xs as [| x t IH]; intros y; [reflexivity |].
  cbn. now rewrite IH.
Qed.

Lemma length_ewm_mean (com : float) (s : list float) :
  length (ewm_mean com s) = length s.
Proof.
  destruct s as [| x t]; [reflexivity |]. cbn. now rewrite length_ewm_from.
Qed.

Lemma rsi_gain_eq (s : list float) :
  rsi_gain s = (fun d => if (d >? f0)%F then d else f0) <$> diff s.
Proof. unfold rsi_gain, rsi_delta, gt_scalar. apply where_fmap. Qed.

Lemma rsi_loss_eq (s : list float) :
  rsi_loss s = (fun d => (- (if (d <? f0)%F then d else f0))%F) <$> diff s.
Proof.
  unfold rsi_loss, rsi_delta, lt_scalar, neg. rewrite where_fmap.
  now rewrite <- list_fmap_compose.
Qed.

(** Neither the gain nor the loss Series holds a NaN: [where] replaced it. *)
Lemma gain_loss_no_nan (s : list float) (i : nat) (x : float) :
  rsi_gain s !! i = Some x \/ rsi_loss s !! i = Some x -> is_nan x = false.
Proof.
  rewrite rsi_gain_eq, rsi_loss_eq, !list_lookup_fmap.
  intros [H | H]; destruct (diff s !! i) as [d |]; try discriminate H;
    cbn in H; injection H as <-; destruct d as [| [] | [] | [] n e];
    reflexivity.
Qed.

Lemma length_rsi_gain (s : list float) : length (rsi_gain s) = length s.
Proof. now rewrite rsi_gain_eq, length_fmap, length_diff. Qed.

Lemma length_rsi_loss (s : list float) : length (rsi_loss s) = length s.
Proof. now rewrite rsi_loss_eq, length_fmap, length_diff. Qed.

Lemma calculate_rsi_eq (s : list float) (P : positive) :
  calculate_rsi s P
  = zip_with rsi_point (rsi_avg_gain s P) (rsi_avg_loss s P).
Proof.
  unfold calculate_rsi, rsub, rdiv, radd, div.
  fold (rsi_delta s). fold (rsi_gain s). fold (rsi_loss s).
  fold (rsi_avg_gain s P). fold (rsi_avg_loss s P).
  generalize (rsi_avg_gain s P) (rsi_avg_loss s P).
  induction l as [| g gs IH]; intros [| l ls]; try reflexivity.
  cbn. f_equal. apply IH.
Qed.

Lemma length_calculate_rsi (s : list float) (P : positive) :
  length (calculate_rsi s P) = length s.
Proof.
  rewrite calculate_rsi_eq, length_zip_with.
  unfold rsi_avg_gain, rsi_avg_loss.
  rewrite !length_ewm_mean, length_rsi_gain, length_rsi_loss. lia.
Qed.

Lemma calculate_rsi_lookup (s : list float) (P : positive) (i : nat) (g l : float) :
  rsi_avg_gain s P !! i = Some g ->
  rsi_avg_loss s P !! i = Some l ->
  calculate_rsi s P !! i = Some (rsi_point g l).
Proof.
  intros Hg Hl. rewrite calculate_rsi_eq, lookup_zip_with, Hg. cbn.
  now rewrite Hl.
Qed.

Lemma calculate_rsi_lookup_inv (s : list float) (P : positive) (i : nat) (r : float) :
  calculate_rsi s P !! i = Some r ->
  exists g l, rsi_avg_gain s P !! i = Some g /\ rsi_avg_loss s P !! i = Some l
              /\ r = rsi_point g l.
Proof.
  rewrite calculate_rsi_eq, lookup_zip_with. intros H.
  destruct (rsi_avg_gain s P !! i) as [g |]; [| discriminate]. cbn in H.
  destruct (rsi_avg_loss s P !! i) as [l |]; [| discriminate]. cbn in H.
  exists g, l. repeat split. now injection H as <-.
Qed.

Lemma diff_lookup_0 (x : float) (t : list float) : diff (x :: t) !! 0%nat = Some NaN.
Proof. reflexivity. Qed.

Lemma diff_lookup_S (s : list float) (i : nat) (a b : float) :
  s !! i = Some a -> s !! S i = Some b -> diff s !! S i = Some (b - a)%F.
Proof.
  destruct s as [| x t]; [discriminate |]. intros Ha Hb.
  cbn [diff]. change ((NaN :: zip_with fsub t (x :: t)) !! S i)
    with (zip_with fsub t (x :: t) !! i).
  change ((x :: t) !! S i) with (t !! i) in Hb.
  rewrite lookup_zip_with, Hb. cbn. now rewrite Ha.
Qed.

Lemma ewm_from_lookup (a y0 : float) (xs : list float) (i : nat) (y x : float) :
  (y0 :: ewm_from a y0 xs) !! i = Some y ->
  xs !! i = Some x ->
  ewm_from a y0 xs !! i = Some (ewm_step a y x).
Proof.
  revert y0 i. induction xs as [| x' t IH]; intros y0 i Hy Hx; [discriminate |].
  destruct i as [| i].
  - cbn in Hy, Hx. injection Hy as <-. injection Hx as <-. reflexivity.
  - change ((x' :: t) !! S i) with (t !! i) in Hx. cbn [ewm_from] in *.
    change ((y0 :: ewm_step a y0 x' :: ewm_from a (ewm_step a y0 x') t) !! S i)
      with ((ewm_step a y0 x' :: ewm_from a (ewm_step a y0 x') t) !! i) in Hy.
    change ((ewm_step a y0 x' :: ewm_from a (ewm_step a y0 x') t) !! S i)
      with (ewm_from a (ewm_step a y0 x') t !! i).
    apply IH; assumption.
Qed.

Lemma ewm_mean_lookup_0 (com x : float) (t : list float) :
  ewm_mean com (x :: t) !! 0%nat = Some x.
Proof. reflexivity. Qed.

Lemma ewm_mean_lookup_S (com : float) (s : list float) (i : nat) (y x : float) :
  ewm_mean com s !! i = Some y ->
  s !! S i = Some x ->
  ewm_mean com s !! S i = Some (ewm_step (alpha_of com) y x).
Proof.
  destruct s as [| x0 t]; [discriminate |]. intros Hy Hx.
  cbn [ewm_mean] in *. fold (alpha_of com) in *.
  change ((x0 :: ewm_from (alpha_of com) x0 t) !! S i)
    with (ewm_from (alpha_of com) x0 t !! i).
  apply ewm_from_lookup; assumption.
Qed.

(** A Series that repeats a fixed point of the smoothing step is unchanged. *)
Lemma ewm_from_replicate (a z : float) (n : nat) :
  ewm_step a z z = z -> ewm_from a z (replicate n z) = replicate n z.
Proof.
  intros Hz. induction n as [| n IH]; [reflexivity |].
  cbn [replicate ewm_from]. rewrite Hz. now f_equal.
Qed.

Lemma ewm_mean_replicate (com z : float) (n : nat) :
  ewm_step (alpha_of com) z z = z ->
  ewm_mean com (replicate n z) = replicate n z.
Proof.
  intros Hz. destruct n as [| n]; [reflexivity |].
  cbn [replicate ewm_mean]. f_equal. now apply ewm_from_replicate.
Qed.

Lemma monotone_lookup (r : float -> float -> bool) (s : list float) (i : nat)
      (a b : float) :
  monotone r s = true -> s !! i = Some a -> s !! S i = Some b -> r a b = true.
Proof.
  revert i. induction s as [| x t IH]; intros i Hm Ha Hb; [discriminate |].
  destruct t as [| y t']; [discriminate |].
  cbn [monotone] in Hm. apply andb_prop in Hm as [Hxy Hm].
  destruct i as [| i].
  - cbn in Ha, Hb. now injection Ha as <-; injection Hb as <-.
  - change ((x :: y :: t') !! S i) with ((y :: t') !! i) in Ha.
    change ((x :: y :: t') !! S (S i)) with ((y :: t') !! S i) in Hb.
    apply (IH i); assumption.
Qed.

End SeriesFacts.

(** ** Facts about the smoothing factor and the RSI formula *)

Section Smoothing.

Import Series.

Lemma alpha_of_period (P : positive) : alpha_of (com_of P) = of_Q (1 # P).
Proof.
  unfold alpha_of, com_of, of_Z.
  pose proof (toQ_of_Q (inject_Z (Z.pos P - 1))) as Hv.
  destruct (of_Q_cases (inject_Z (Z.pos P - 1)))
    as [[Hq E] | [[Hq (n & d & E)] | [Hq _]]].
  - rewrite E. unfold f1. cbn [fadd fdiv]. apply of_Q_proper.
    unfold Qeq in Hq; simpl in Hq.
    assert (P = 1%positive) as -> by lia. reflexivity.
  - rewrite E in Hv |- *. unfold f1. cbn [fadd].
    pose proof (toQ_of_Q (toQ (Fin false 1 1) + toQ (Fin false n d))) as Hs.
    assert (Hsum : (toQ (Fin false 1 1) + toQ (Fin false n d) == inject_Z (Z.pos P))%Q).
    { rewrite Hv. unfold Qeq; simpl. lia. }
    destruct (of_Q_cases (toQ (Fin false 1 1) + toQ (Fin false n d)))
      as [[Hz _] | [[_ (n' & d' & E')] | [Hn _]]].
    + exfalso. rewrite Hsum in Hz. unfold Qeq in Hz; simpl in Hz. lia.
    + rewrite E' in Hs |- *. cbn [fdiv]. apply of_Q_proper.
      rewrite Hs, Hsum. reflexivity.
    + exfalso. rewrite Hsum in Hn. unfold Qlt in Hn; simpl in Hn. lia.
  - exfalso. unfold Qlt in Hq; simpl in Hq. lia.
Qed.

Lemma alpha_fin (P : positive) :
  exists n d, alpha_of (com_of P) = Fin false n d
              /\ (toQ (Fin false n d) == 1 # P)%Q.
Proof.
  rewrite alpha_of_period. pose proof (toQ_of_Q (1 # P)) as Hv.
  destruct (of_Q_cases (1 # P)) as [[Hz _] | [[_ (n & d & E)] | [Hn _]]].
  - exfalso. unfold Qeq in Hz; simpl in Hz. lia.
  - rewrite E in Hv |- *. eauto.
  - exfalso. unfold Qlt in Hn; simpl in Hn. lia.
Qed.

Lemma one_minus_alpha (P : positive) :
  (f1 - alpha_of (com_of P))%F = Zero false
  \/ exists n d, (f1 - alpha_of (com_of P))%F = Fin false n d.
Proof.
  destruct (alpha_fin P) as (n & d & -> & Hv).
  unfold fsub, f1. cbn [fneg fadd negb].
  destruct (of_Q_cases (toQ (Fin false 1 1) + toQ (Fin true n d)))
    as [[_ E] | [[_ (n' & d' & E)] | [Hn _]]]; [now left | right; eauto |].
  exfalso. pose proof (toQ_fneg (Fin false n d)) as Hneg.
  cbn [fneg negb] in Hneg. rewrite Hneg, Hv in Hn.
  unfold Qlt in Hn; simpl in Hn. lia.
Qed.

(** Averaging zeros gives the same zero, sign included. *)
Lemma ewm_step_zero (P : positive) (s : bool) :
  ewm_step (alpha_of (com_of P)) (Zero s) (Zero s) = Zero s.
Proof.
  unfold ewm_step.
  destruct (one_minus_alpha P) as [-> | (n' & d' & ->)];
    destruct (alpha_fin P) as (n & d & -> & _); destruct s; reflexivity.
Qed.

Lemma rsi_point_zero_loss (g : float) (s : bool) :
  rsi_point g (Zero s) = if is_nan g || is_zero g then NaN else f100.
Proof. destruct g as [| [] | [] | [] n d], s; reflexivity. Qed.

Lemma rsi_point_zero_gain (s : bool) (l : float) :
  rsi_point (Zero s) l = NaN \/ rsi_point (Zero s) l = Zero false.
Proof.
  destruct l as [| [] | [] | [] n d], s; (now left) || (now right).
Qed.

Lemma diff_lookup_inv (s : list float) (i : nat) (d : float) :
  diff s !! i = Some d ->
  (i = 0%nat /\ d = NaN)
  \/ exists j a b, i = S j /\ s !! j = Some a /\ s !! S j = Some b
                   /\ d = (b - a)%F.
Proof.
  destruct s as [| x t]; [discriminate |]. destruct i as [| j].
  - intros H. left. cbn in H. split; congruence.
  - cbn [diff]. change ((NaN :: zip_with fsub t (x :: t)) !! S j)
      with (zip_with fsub t (x :: t) !! j).
    rewrite lookup_zip_with. intros H. right.
    destruct (t !! j) as [b |] eqn:Hb; [| discriminate]. cbn in H.
    destruct ((x :: t) !! j) as [a |] eqn:Ha; [| discriminate]. cbn in H.
    exists j, a, b.
    split; [reflexivity | split; [exact Ha | split; [exact Hb | congruence]]].
Qed.

Lemma gain_all_zero (s : list float) :
  (forall i d, diff s !! i = Some d -> (d >? f0)%F = false) ->
  rsi_gain s = replicate (length s) f0.
Proof.
  intros H. symmetry. apply replicate_as_Forall. split.
  - apply length_rsi_gain.
  - rewrite rsi_gain_eq. apply Forall_fmap, Forall_lookup. intros i d Hd.
    cbn. now rewrite (H i d Hd).
Qed.

Lemma loss_all_zero (s : list float) :
  (forall i d, diff s !! i = Some d -> (d <? f0)%F = false) ->
  rsi_loss s = replicate (length s) (Zero true).
Proof.
  intros H. symmetry. apply replicate_as_Forall. split.
  - apply length_rsi_loss.
  - rewrite rsi_loss_eq. apply Forall_fmap, Forall_lookup. intros i d Hd.
    cbn. now rewrite (H i d Hd).
Qed.

Lemma avg_gain_all_zero (s : list float) (P : positive) :
  (forall i d, diff s !! i = Some d -> (d >? f0)%F = false) ->
  rsi_avg_gain s P = replicate (length s) f0.
Proof.
  intros H. unfold rsi_avg_gain. rewrite (gain_all_zero s H).
  apply ewm_mean_replicate, ewm_step_zero.
Qed.

Lemma avg_loss_all_zero (s : list float) (P : positive) :
  (forall i d, diff s !! i = Some d -> (d <? f0)%F = false) ->
  rsi_avg_loss s P = replicate (length s) (Zero true).
Proof.
  intros H. unfold rsi_avg_loss. rewrite (loss_all_zero s H).
  apply ewm_mean_replicate, ewm_step_zero.
Qed.

Lemma diff_increasing (s : list float) :
  increasing s = true ->
  forall i d, diff s !! i = Some d -> (d <? f0)%F = false.
Proof.
  intros Hm i d Hd.
  destruct (diff_lookup_inv s i d Hd) as [[_ ->] | (j & a & b & _ & Ha & Hb & ->)];
    [reflexivity |].
  apply fsub_le_not_neg. exact (monotone_lookup fle s j a b Hm Ha Hb).
Qed.

Lemma diff_decreasing (s : list float) :
  decreasing s = true ->
  forall i d, diff s !! i = Some d -> (d >? f0)%F = false.
Proof.
  intros Hm i d Hd.
  destruct (diff_lookup_inv s i d Hd) as [[_ ->] | (j & a & b & _ & Ha & Hb & ->)];
    [reflexivity |].
  apply fsub_ge_not_pos. exact (monotone_lookup fge s j a b Hm Ha Hb).
Qed.

Lemma diff_constant (x : float) (n : nat) :
  forall i d, diff (replicate n x) !! i = Some d ->
              (d >? f0)%F = false /\ (d <? f0)%F = false.
Proof.
  intros i d Hd.
  destruct (diff_lookup_inv _ i d Hd) as [[_ ->] | (j & a & b & _ & Ha & Hb & ->)];
    [split; reflexivity |].
  apply lookup_replicate in Ha as [-> _]. apply lookup_replicate in Hb as [-> _].
  apply fsub_self_sign.
Qed.

End Smoothing.

(** ** The RSI calculator: shape of the output *)

Section Calculator.

Import Series.

Lemma zip_with_take_shift (n : nat) (x : float) (t : list float) :
  zip_with fsub (take n t) (take n (x :: t))
  = zip_with fsub (take n t) (x :: take n t).
Proof.
  revert x t. induction n as [| n IH]; intros x t; [reflexivity |].
  destruct t as [| y t']; [reflexivity |].
  cbn [take zip_with]. f_equal. apply IH.
Qed.

Lemma take_diff (n : nat) (s : list float) : diff (take n s) = take n (diff s).
Proof.
  destruct s as [| x t]; [now destruct n |].
  destruct n as [| n]; [reflexivity |].
  cbn [take diff]. f_equal. rewrite zip_with_take.
  symmetry. apply zip_with_take_shift.
Qed.

Lemma take_ewm_from (a y : float) (n : nat) (xs : list float) :
  ewm_from a y (take n xs) = take n (ewm_from a y xs).
Proof.
  revert y n. induction xs as [| x t IH]; intros y n.
  - now destruct n.
  - destruct n as [| n]; [reflexivity |]. cbn [take ewm_from]. f_equal. apply IH.
Qed.

Lemma take_ewm_mean (com : float) (n : nat) (s : list float) :
  ewm_mean com (take n s) = take n (ewm_mean com s).
Proof.
  destruct s as [| x t]; [now destruct n |].
  destruct n as [| n]; [reflexivity |].
  cbn [take ewm_mean]. f_equal. apply take_ewm_from.
Qed.

Lemma take_calculate_rsi (n : nat) (s : list float) (P : positive) :
  calculate_rsi (take n s) P = take n (calculate_rsi s P).
Proof.
  rewrite !calculate_rsi_eq. unfold rsi_avg_gain, rsi_avg_loss.
  rewrite !rsi_gain_eq, !rsi_loss_eq, take_diff, !fmap_take,
    !take_ewm_mean.
  now rewrite zip_with_take.
Qed.

End Calculator.

(** ** The RSI calculator: values *)

Section CalculatorValues.

Import Series.

Lemma increasing_rsi_values (s : list float) (P : positive) (i : nat) (r : float) :
  increasing s = true -> calculate_rsi s P !! i = Some r ->
  r = NaN \/ r = f100.
Proof.
  intros Hm Hr.
  destruct (calculate_rsi_lookup_inv s P i r Hr) as (g & l & _ & Hl & ->).
  rewrite (avg_loss_all_zero s P (diff_increasing s Hm)) in Hl.
  apply lookup_replicate in Hl as [-> _]. rewrite rsi_point_zero_loss.
  destruct (is_nan g || is_zero g); auto.
Qed.

Lemma decreasing_rsi_values (s : list float) (P : positive) (i : nat) (r : float) :
  decreasing s = true -> calculate_rsi s P !! i = Some r ->
  r = NaN \/ r = Zero false.
Proof.
  intros Hm Hr.
  destruct (calculate_rsi_lookup_inv s P i r Hr) as (g & l & Hg & _ & ->).
  rewrite (avg_gain_all_zero s P (diff_decreasing s Hm)) in Hg.
  apply lookup_replicate in Hg as [-> _]. apply rsi_point_zero_gain.
Qed.

(** C1, as stated, fails: on the constant series 5, 5, 5 the smoothed average
    loss at index 1 is zero and the RSI there is NaN, not 100. *)
Lemma zero_loss_constant_series_not_100 :
  ~ (forall (s : list float) (P : positive) (i : nat) (l : float),
        rsi_avg_loss s P !! i = Some l -> is_zero l = true ->
        calculate_rsi s P !! i = Some f100).
Proof.
  intros H.
  specialize (H (prices [5; 5; 5]) 14%positive 1%nat (Zero true) eq_refl eq_refl).
  vm_compute in H. discriminate H.
Qed.

(** C1 (amended): whenever the smoothed average loss at index [i] is zero, the
    RSI at [i] is 100 if the smoothed average gain there is a non-zero number,
    and NaN if the average gain is zero too (or NaN); at every index of a
    constant series both averages are zero and the RSI is NaN. *)
Theorem zero_loss_rsi :
  (forall (s : list float) (P : positive) (i : nat) (g l : float),
      rsi_avg_gain s P !! i = Some g ->
      rsi_avg_loss s P !! i = Some l ->
      is_zero l = true ->
      calculate_rsi s P !! i
      = Some (if is_nan g || is_zero g then NaN else f100))
  /\ (forall (x : float) (n : nat) (P : positive) (i : nat),
         (i < n)%nat ->
         rsi_avg_gain (replicate n x) P !! i = Some f0
         /\ rsi_avg_loss (replicate n x) P !! i = Some (Zero true)
         /\ calculate_rsi (replicate n x) P !! i = Some NaN).
Proof.
  split.
  - intros s P i g l Hg Hl Hz.
    rewrite (calculate_rsi_lookup s P i g l Hg Hl).
    destruct l; try discriminate. now rewrite rsi_point_zero_loss.
  - intros x n P i Hi.
    assert (Hg : rsi_avg_gain (replicate n x) P !! i = Some f0).
    { rewrite avg_gain_all_zero.
      - rewrite length_replicate. now apply lookup_replicate_2.
      - intros j d Hd. now apply (diff_constant x n j d). }
    assert (Hl : rsi_avg_loss (replicate n x) P !! i = Some (Zero true)).
    { rewrite avg_loss_all_zero.
      - rewrite length_replicate. now apply lookup_replicate_2.
      - intros j d Hd. now apply (diff_constant x n j d). }
    split; [exact Hg | split; [exact Hl |]].
    now rewrite (calculate_rsi_lookup _ P i _ _ Hg Hl).
Qed.

Lemma zero_loss_rsi_witness :
  calculate_rsi (prices [1; 2; 3]) 14 !! 2%nat = Some f100
  /\ calculate_rsi (replicate 3 f30) 14 !! 1%nat = Some NaN.
Proof.
  split.
  - exact (proj1 zero_loss_rsi (prices [1; 2; 3]) 14%positive 2%nat
             (Fin false 27 196) (Zero true) eq_refl eq_refl eq_refl).
  - apply (proj2 zero_loss_rsi f30 3%nat 14%positive 1%nat). lia.
Defined.

(** C5: on a monotonically increasing closing-price series of length at
    least P+2 the last two RSI values never satisfy the SELL rule, and on a
    monotonically decreasing one they never satisfy the BUY rule. *)
Theorem monotone_series_no_opposite_alert
    (s : list float) (P : positive) (prev curr : float) :
  (Pos.to_nat P + 2 <= length s)%nat ->
  calculate_rsi s P !! (length s - 2)%nat = Some prev ->
  calculate_rsi s P !! (length s - 1)%nat = Some curr ->
  (increasing s = true -> sell_rule prev curr = false)
  /\ (decreasing s = true -> buy_rule prev curr = false).
Proof.
  intros _ _ Hc. unfold sell_rule, buy_rule. split; intros Hm.
  - destruct (increasing_rsi_values s P _ curr Hm Hc) as [-> | ->];
      apply andb_false_r.
  - destruct (decreasing_rsi_values s P _ curr Hm Hc) as [-> | ->];
      apply andb_false_r.
Qed.

Lemma monotone_series_no_opposite_alert_witness :
  sell_rule f100 f100 = false
  /\ buy_rule (Zero false) (Zero false) = false.
Proof.
  split.
  - refine (proj1 (monotone_series_no_opposite_alert
                     (prices [1; 2; 3; 4; 5]) 3 f100 f100 _ _ _) _);
      [vm_compute; lia | reflexivity | reflexivity | reflexivity].
  - refine (proj2 (monotone_series_no_opposite_alert
                     (prices [5; 4; 3; 2; 1]) 3 (Zero false) (Zero false) _ _ _) _);
      [vm_compute; lia | reflexivity | reflexivity | reflexivity].
Defined.

(** C8: the RSI series has the length of the input series and the same
    index: a position holds an RSI value exactly when it holds a price, and
    the value at a position is computed from the prices up to that position. *)
Theorem rsi_length_and_alignment (s : list float) (P : positive) :
  length (calculate_rsi s P) = length s
  /\ (forall i, is_Some (calculate_rsi s P !! i) <-> is_Some (s !! i))
  /\ (forall i, calculate_rsi (take (S i) s) P !! i = calculate_rsi s P !! i).
Proof.
  split; [apply length_calculate_rsi | split].
  - intros i. rewrite !lookup_lt_is_Some. now rewrite length_calculate_rsi.
  - intros i. rewrite take_calculate_rsi. apply lookup_take_lt. lia.
Qed.

(** C10: for every non-empty series the first difference is NaN and is
    replaced by zero in both the gain and the loss series, both averages are
    seeded with zero, and the first RSI value is NaN. *)
Theorem first_rsi_is_nan (x : float) (t : list float) (P : positive) :
  rsi_delta (x :: t) !! 0%nat = Some NaN
  /\ is_zero <$> rsi_gain (x :: t) !! 0%nat = Some true
  /\ is_zero <$> rsi_loss (x :: t) !! 0%nat = Some true
  /\ is_zero <$> rsi_avg_gain (x :: t) P !! 0%nat = Some true
  /\ is_zero <$> rsi_avg_loss (x :: t) P !! 0%nat = Some true
  /\ calculate_rsi (x :: t) P !! 0%nat = Some NaN.
Proof. repeat split. Qed.

End CalculatorValues.

(** ** The calculator against its index-wise description *)

Section Refinement.

Import Series.

Lemma zsim_fmul (a x x' : float) : zsim x x' -> zsim (a * x)%F (a * x')%F.
Proof.
  intros [-> | [Hz Hz']]; [now left |].
  destruct x as [| | sx |]; try discriminate.
  destruct x' as [| | sx' |]; try discriminate.
  destruct a as [| sa | sa | sa n d]; cbn; (now left) || (now right).
Qed.

Lemma zsim_fadd (u u' v v' : float) :
  zsim u u' -> zsim v v' -> zsim (u + v)%F (u' + v')%F.
Proof.
  intros [-> | [Hu Hu']] [-> | [Hv Hv']]; [now left | | |].
  - destruct v as [| | sv |]; try discriminate.
    destruct v' as [| | sv' |]; try discriminate.
    destruct u' as [| su | su | su n d]; cbn; try (now left).
    destruct (Bool.eqb su sv), (Bool.eqb su sv'); now right.
  - destruct u as [| | su |]; try discriminate.
    destruct u' as [| | su' |]; try discriminate.
    destruct v' as [| sv | sv | sv n d]; cbn; try (now left).
    destruct (Bool.eqb su sv), (Bool.eqb su' sv); now right.
  - destruct u as [| | su |]; try discriminate.
    destruct u' as [| | su' |]; try discriminate.
    destruct v as [| | sv |]; try discriminate.
    destruct v' as [| | sv' |]; try discriminate.
    cbn. destruct (Bool.eqb su sv), (Bool.eqb su' sv'); now right.
Qed.

Lemma rsi_point_zsim (g l l' : float) :
  zsim l l' -> rsi_point g l = rsi_point g l'.
Proof.
  intros [-> | [Hz Hz']]; [reflexivity |].
  destruct l as [| | s |]; try discriminate.
  destruct l' as [| | s' |]; try discriminate.
  now rewrite !rsi_point_zero_loss.
Qed.

Lemma flt_fneg (d : float) : (d <? f0)%F = (- d >? f0)%F.
Proof. destruct d as [| [] | [] | [] n e]; reflexivity. Qed.

Lemma diff_reference (s : list float) (i : nat) :
  (i < length s)%nat -> diff s !! i = Some (Reference.delta s i).
Proof.
  intros Hi. destruct i as [| j].
  - destruct s; [cbn in Hi; lia | reflexivity].
  - destruct (lookup_lt_is_Some_2 s j ltac:(lia)) as [a Ha].
    destruct (lookup_lt_is_Some_2 s (S j) Hi) as [b Hb].
    rewrite (diff_lookup_S s j a b Ha Hb).
    unfold Reference.delta, Reference.at_. now rewrite Ha, Hb.
Qed.

Lemma gain_reference (s : list float) (i : nat) (x : float) :
  rsi_gain s !! i = Some x -> x = Reference.gain s i.
Proof.
  intros Hx. assert (Hi : (i < length s)%nat).
  { rewrite <- length_rsi_gain. now apply lookup_lt_Some with x. }
  rewrite rsi_gain_eq, list_lookup_fmap, (diff_reference s i Hi) in Hx.
  now injection Hx as <-.
Qed.

Lemma loss_reference (s : list float) (i : nat) (x : float) :
  rsi_loss s !! i = Some x -> zsim x (Reference.loss s i).
Proof.
  intros Hx. assert (Hi : (i < length s)%nat).
  { rewrite <- length_rsi_loss. now apply lookup_lt_Some with x. }
  rewrite rsi_loss_eq, list_lookup_fmap, (diff_reference s i Hi) in Hx.
  injection Hx as <-. unfold Reference.loss, Reference.max.
  rewrite <- flt_fneg.
  destruct (Reference.delta s i <? f0)%F; [now left | now right].
Qed.

(** The list-based recurrence follows the index-based one, up to the sign
    of a zero when the observations agree up to the sign of a zero. *)
Lemma ewm_mean_reference (com : float) (xs : list float) (value : nat -> float) :
  (forall i x, xs !! i = Some x -> zsim x (value i)) ->
  forall i y, ewm_mean com xs !! i = Some y ->
              zsim y (Reference.avg (alpha_of com) value i).
Proof.
  intros Hxs. induction i as [| i IH]; intros y Hy.
  - destruct xs as [| x0 t]; [discriminate |].
    rewrite ewm_mean_lookup_0 in Hy. injection Hy as <-.
    cbn [Reference.avg]. now apply (Hxs 0%nat).
  - assert (Hi : (S i < length xs)%nat).
    { rewrite <- (length_ewm_mean com). now apply lookup_lt_Some with y. }
    destruct (lookup_lt_is_Some_2 xs (S i) Hi) as [x Hx].
    destruct (lookup_lt_is_Some_2 (ewm_mean com xs) i) as [y' Hy'].
    { rewrite length_ewm_mean. lia. }
    rewrite (ewm_mean_lookup_S com xs i y' x Hy' Hx) in Hy.
    injection Hy as <-. cbn [Reference.avg]. unfold ewm_step.
    rewrite fadd_comm. apply zsim_fadd.
    + apply zsim_fmul. now apply (Hxs (S i)).
    + apply zsim_fmul. now apply IH.
Qed.

Lemma ewm_mean_reference_eq (com : float) (xs : list float) (value : nat -> float) :
  (forall i x, xs !! i = Some x -> x = value i) ->
  forall i y, ewm_mean com xs !! i = Some y ->
              y = Reference.avg (alpha_of com) value i.
Proof.
  intros Hxs. induction i as [| i IH]; intros y Hy.
  - destruct xs as [| x0 t]; [discriminate |].
    rewrite ewm_mean_lookup_0 in Hy. injection Hy as <-.
    cbn [Reference.avg]. now apply (Hxs 0%nat).
  - assert (Hi : (S i < length xs)%nat).
    { rewrite <- (length_ewm_mean com). now apply lookup_lt_Some with y. }
    destruct (lookup_lt_is_Some_2 xs (S i) Hi) as [x Hx].
    destruct (lookup_lt_is_Some_2 (ewm_mean com xs) i) as [y' Hy'].
    { rewrite length_ewm_mean. lia. }
    rewrite (ewm_mean_lookup_S com xs i y' x Hy' Hx) in Hy.
    injection Hy as <-. cbn [Reference.avg]. unfold ewm_step.
    rewrite fadd_comm. now rewrite (Hxs (S i) x Hx), (IH y' Hy').
Qed.

(** C3: at every index the RSI that [calculate_rsi] returns is the value of
    the index-wise definition: first differences, gain and loss as the
    positive parts, the recursive average with [alpha = 1/P] seeded with its
    first value, and [100 - 100 / (1 + avg_gain / avg_loss)]. *)
Theorem calculate_rsi_is_reference (s : list float) (P : positive) (i : nat) :
  (2 <= length s)%nat -> (i < length s)%nat ->
  calculate_rsi s P !! i = Some (Reference.rsi s P i).
Proof.
  intros _ Hi.
  destruct (lookup_lt_is_Some_2 (rsi_avg_gain s P) i) as [g Hg].
  { unfold rsi_avg_gain. now rewrite length_ewm_mean, length_rsi_gain. }
  destruct (lookup_lt_is_Some_2 (rsi_avg_loss s P) i) as [l Hl].
  { unfold rsi_avg_loss. now rewrite length_ewm_mean, length_rsi_loss. }
  rewrite (calculate_rsi_lookup s P i g l Hg Hl). f_equal.
  unfold Reference.rsi, Reference.alpha. rewrite <- alpha_of_period.
  rewrite <- (ewm_mean_reference_eq (com_of P) (rsi_gain s) (Reference.gain s)
                (gain_reference s) i g Hg).
  apply rsi_point_zsim.
  exact (ewm_mean_reference (com_of P) (rsi_loss s) (Reference.loss s)
           (loss_reference s) i l Hl).
Qed.

Lemma calculate_rsi_is_reference_witness :
  calculate_rsi (prices [4; 5; 3; 6]) 14 !! 3%nat
  = Some (Reference.rsi (prices [4; 5; 3; 6]) 14 3).
Proof.
  apply (calculate_rsi_is_reference (prices [4; 5; 3; 6]) 14%positive 3%nat);
    vm_compute; lia.
Defined.

End Refinement.

(** ** The crossover block *)

Section Crossover.

Local Open Scope Q_scope.

Lemma fle_of_Q (p q : Q) : (of_Q p <=? of_Q q)%F = true <-> p <= q.
Proof.
  unfold fle. rewrite fcompare_of_Q, Qle_alt.
  destruct (p ?= q); split; intros H; congruence.
Qed.

Lemma flt_of_Q (p q : Q) : (of_Q p <? of_Q q)%F = true <-> p < q.
Proof.
  unfold flt. rewrite fcompare_of_Q, Qlt_alt.
  destruct (p ?= q); split; intros H; congruence.
Qed.

Lemma buy_rule_Q (p c : Q) :
  buy_rule (of_Q p) (of_Q c) = true <-> p <= 30 /\ 30 < c.
Proof.
  unfold buy_rule, fgt. change f30 with (of_Q 30).
  now rewrite andb_true_iff, fle_of_Q, flt_of_Q.
Qed.

Lemma sell_rule_Q (p c : Q) :
  sell_rule (of_Q p) (of_Q c) = true <-> 80 <= p /\ c < 80.
Proof.
  unfold sell_rule, fge. change f80 with (of_Q 80).
  now rewrite andb_true_iff, fle_of_Q, flt_of_Q.
Qed.

Lemma posted_send (w : world) (m : alert_text) (l : line) :
  posted (trace (bind (send_telegram_message w m) (fun _ => print l))) = [m].
Proof.
  unfold send_telegram_message. destruct (post_reply w) as [[] |]; reflexivity.
Qed.

Lemma decision_of_crossover (w : world) (prev curr price : float) :
  decision_of (trace (crossover w prev curr price))
  = if buy_rule prev curr then BUY
    else if sell_rule prev curr then SELL else NONE.
Proof.
  unfold crossover, decision_of.
  destruct (buy_rule prev curr); [now rewrite posted_send |].
  destruct (sell_rule prev curr); [now rewrite posted_send | reflexivity].
Qed.

Lemma posted_crossover (w : world) (prev curr price : float) :
  posted (trace (crossover w prev curr price))
  = if buy_rule prev curr then [AlertText BUY curr price]
    else if sell_rule prev curr then [AlertText SELL curr price] else [].
Proof.
  unfold crossover.
  destruct (buy_rule prev curr); [now rewrite posted_send |].
  destruct (sell_rule prev curr); [now rewrite posted_send | reflexivity].
Qed.

(** C2: for every pair of numbers (prev, curr) the crossover block decides
    BUY if prev <= 30 and curr > 30, otherwise SELL if prev >= 80 and
    curr < 80, otherwise NONE with no message posted; the five sample pairs
    decide as listed, and one pair never fires both alerts. *)
Theorem crossover_decision (w : world) (price : float) :
  (forall prev curr : Q,
      let t := trace (crossover w (of_Q prev) (of_Q curr) price) in
      (prev <= 30 /\ 30 < curr -> decision_of t = BUY)
      /\ (~ (prev <= 30 /\ 30 < curr) -> 80 <= prev /\ curr < 80 ->
          decision_of t = SELL)
      /\ (~ (prev <= 30 /\ 30 < curr) -> ~ (80 <= prev /\ curr < 80) ->
          decision_of t = NONE /\ posted t = [])
      /\ (length (posted t) <= 1)%nat
      /\ ~ ((prev <= 30 /\ 30 < curr) /\ (80 <= prev /\ curr < 80)))
  /\ decision_of (trace (crossover w (of_Q 29) (of_Q 31) price)) = BUY
  /\ decision_of (trace (crossover w (of_Q 30) (of_Q (301 # 10)) price)) = BUY
  /\ decision_of (trace (crossover w (of_Q 81) (of_Q 79) price)) = SELL
  /\ decision_of (trace (crossover w (of_Q 80) (of_Q (799 # 10)) price)) = SELL
  /\ decision_of (trace (crossover w (of_Q 50) (of_Q 51) price)) = NONE.
Proof.
  split; [| rewrite !decision_of_crossover; repeat split].
  intros prev curr t. subst t.
  rewrite decision_of_crossover, posted_crossover.
  assert (Hex : ~ ((prev <= 30 /\ 30 < curr) /\ (80 <= prev /\ curr < 80))).
  { intros [[H1 _] [H2 _]]. pose proof (Qle_trans _ _ _ H2 H1) as H.
    unfold Qle in H; simpl in H. lia. }
  pose proof (buy_rule_Q prev curr) as Hb.
  pose proof (sell_rule_Q prev curr) as Hs.
  destruct (buy_rule (of_Q prev) (of_Q curr));
    destruct (sell_rule (of_Q prev) (of_Q curr)); cbn [length];
    repeat split; try reflexivity; try lia; try exact Hex; intros;
    try (exfalso; tauto); try (intuition congruence).
Qed.

End Crossover.

(** ** The check as a whole *)

Section Check.

Lemma bind_ret_l {A B} (a : A) (f : A -> M B) : bind (ret a) f = f a.
Proof. unfold bind, ret. now destruct (f a) as [t r]. Qed.

Lemma iloc_in_range {A} (s : list A) (k i : Z) (x : A) :
  i = (if k <? 0 then Z.of_nat (length s) + k else k) ->
  s !! Z.to_nat i = Some x -> 0 <= i -> iloc s k = ret x.
Proof.
  intros Hi Hx H0. unfold iloc. rewrite <- Hi.
  assert (Hn : i < Z.of_nat (length s)).
  { apply lookup_lt_Some in Hx. lia. }
  destruct (Z.leb_spec 0 i); [| lia]. destruct (Z.ltb_spec i (Z.of_nat (length s))); [| lia].
  cbn [andb]. now rewrite Hx.
Qed.

Lemma iloc_out_of_range {A} (s : list A) (k : Z) :
  let i := if k <? 0 then Z.of_nat (length s) + k else k in
  i < 0 \/ Z.of_nat (length s) <= i -> iloc s k = raise IndexError.
Proof.
  intros i Hi. unfold iloc. fold i.
  destruct (Z.leb_spec 0 i), (Z.ltb_spec i (Z.of_nat (length s)));
    try reflexivity; lia.
Qed.

Lemma iloc_succeeds {A} (s : list A) (k : Z) :
  succeeds (iloc s k) = true
  <-> 0 <= (if k <? 0 then Z.of_nat (length s) + k else k) < Z.of_nat (length s).
Proof.
  set (i := if k <? 0 then Z.of_nat (length s) + k else k). split.
  - intros H.
    destruct (Z.lt_ge_cases i 0) as [Hlt | Hge].
    { rewrite iloc_out_of_range in H by (left; exact Hlt). discriminate H. }
    destruct (Z.lt_ge_cases i (Z.of_nat (length s))) as [Hlt | Hge']; [lia |].
    rewrite iloc_out_of_range in H by (right; exact Hge'). discriminate H.
  - intros [H0 Hn].
    destruct (lookup_lt_is_Some_2 s (Z.to_nat i) ltac:(lia)) as [x Hx].
    now rewrite (iloc_in_range s k i x eq_refl Hx H0).
Qed.

Lemma configured_script (w : world) :
  configured w = true ->
  check_configuration w = ret tt /\ script w = check_market w.
Proof.
  unfold configured, script, check_configuration. intros H.
  destruct (truthy (BOT_TOKEN w)), (truthy (CHAT_ID w)), (truthy (API_KEY w));
    try discriminate H. cbn [negb orb]. split; [reflexivity |].
  exact (bind_ret_l tt (fun _ => check_market w)).
Qed.

(** C4: the two reads [iloc[-1]] and [iloc[-2]] both succeed exactly when
    the series has at least two points; on a frame of one row the check
    raises [IndexError] at the second read, before it prints or decides
    anything, and an empty frame ends the check with "No data received.";
    in neither case is "No crossover detected." the outcome. *)
Theorem short_frame_is_no_silent_none :
  (forall s : list float,
      (succeeds (iloc s (-1)) && succeeds (iloc s (-2)) = true)
      <-> (2 <= length s)%nat)
  /\ (forall (w : world) (c : candle),
         analyze w (Some [c]) = ([], inl IndexError))
  /\ (forall w : world, analyze w (Some []) = ([Print NoDataLine], inr tt))
  /\ (forall (w : world) (df : list candle),
         (length df < 2)%nat ->
         (Print NoCrossoverLine ∉ trace (analyze w (Some df)))
         /\ posted (trace (analyze w (Some df))) = [])
  /\ (forall (w : world) (r : raw_candle) (c : candle) (msg : option string),
         get_reply w = inr (Json (Some [r]) msg) -> to_numeric r = Some c ->
         result (check_market w) = inl IndexError
         /\ (Print NoCrossoverLine ∉ trace (check_market w))).
Proof.
  split; [| split; [| split; [| split]]].
  - intros s. rewrite andb_true_iff, !iloc_succeeds. cbn. lia.
  - reflexivity.
  - reflexivity.
  - intros w df Hlen. destruct df as [| c [| c' df]]; [| | cbn in Hlen; lia].
    + split; [| reflexivity]. cbn. intros H. apply list_elem_of_singleton in H.
      discriminate H.
    + split; [| reflexivity]. cbn. apply not_elem_of_nil.
  - intros w r c msg Hr Hc. unfold check_market, get_twelvedata_price.
    rewrite Hr. cbn. rewrite Hc. cbn. split; [reflexivity |].
    intros H. apply list_elem_of_In in H. cbn in H.
    destruct H as [H | [H | []]]; discriminate H.
Qed.

Lemma short_frame_is_no_silent_none_witness :
  (Print NoCrossoverLine
     ∉ trace (analyze (World ∅ (inl KeyError) None)
                      (Some [Candle f30 f30 f30 f30])))
  /\ result (check_market
               (World (env3 "t" "c" "k") (inr (Json (Some [flat 70]) None)) None))
     = inl IndexError.
Proof.
  split.
  - apply (proj1 (proj2 (proj2 (proj2 short_frame_is_no_silent_none)))
             (World ∅ (inl KeyError) None) [Candle f30 f30 f30 f30]).
    cbn. lia.
  - apply (proj2 (proj2 (proj2 (proj2 short_frame_is_no_silent_none)))
             (World (env3 "t" "c" "k") (inr (Json (Some [flat 70]) None)) None)
             (flat 70) (Candle (of_Z 70) (of_Z 70) (of_Z 70) (of_Z 70)) None);
      reflexivity.
Defined.

(** C6, as stated, fails: with BOT_TOKEN set to the empty string all three
    variables are present, and the start-up check still aborts. *)
Lemma present_but_empty_aborts : ~ configuration_claim.
Proof.
  intros H.
  destruct (H (World (env3 "" "c" "k") (inl KeyError) None)) as [_ H2].
  assert (Hp : is_Some (BOT_TOKEN (World (env3 "" "c" "k") (inl KeyError) None))
               /\ is_Some (CHAT_ID (World (env3 "" "c" "k") (inl KeyError) None))
               /\ is_Some (API_KEY (World (env3 "" "c" "k") (inl KeyError) None))).
  { repeat split; vm_compute; eauto. }
  specialize (H2 Hp). vm_compute in H2. discriminate H2.
Qed.

(** C6 (amended): if any of the three variables is missing or empty, the
    process prints the diagnostic and exits with code 1 having made no HTTP
    request; if all three are present and non-empty, the abort does not occur
    and the script goes on to the market check. *)
Theorem configuration_check (w : world) :
  (BOT_TOKEN w = None \/ CHAT_ID w = None \/ API_KEY w = None ->
   configured w = false)
  /\ (configured w = false ->
      run w = ([Print MissingEnvLine], 1)
      /\ forallb (fun ev => negb (is_network ev)) (fst (run w)) = true)
  /\ (configured w = true ->
      check_configuration w = ret tt /\ script w = check_market w).
Proof.
  split; [| split]; [| | apply configured_script];
    unfold configured, run, script, check_configuration.
  - intros [H | [H | H]]; rewrite H; cbn [truthy];
      rewrite ?andb_false_r; reflexivity.
  - intros H.
    destruct (truthy (BOT_TOKEN w)), (truthy (CHAT_ID w)), (truthy (API_KEY w));
      try discriminate H; split; reflexivity.
Qed.

Lemma configuration_check_witness :
  run (World (env3 "t" "" "k") (inl KeyError) None) = ([Print MissingEnvLine], 1)
  /\ check_configuration (World (env3 "t" "c" "k") (inl KeyError) None) = ret tt.
Proof.
  split.
  - apply (proj1 (proj2 (configuration_check
                           (World (env3 "t" "" "k") (inl KeyError) None)))).
    vm_compute. reflexivity.
  - apply (proj2 (proj2 (configuration_check
                           (World (env3 "t" "c" "k") (inl KeyError) None)))).
    vm_compute. reflexivity.
Defined.

(** C7: when the request raises, or the response has no [values] key, or its
    [values] list is empty, the fetch prints the matching diagnostic and
    yields no data; the check prints "No data received.", posts nothing and
    returns normally, so no exception leaves it and the exit code is 0. *)
Theorem fetch_failure_is_soft (w : world) (diag : line) :
  fetch_failure w diag ->
  get_twelvedata_price w
  = ([HttpGet SYMBOL INTERVAL (default "" (API_KEY w)) 50; Print diag], inr None)
  /\ check_market w
     = ([Print FetchingLine;
         HttpGet SYMBOL INTERVAL (default "" (API_KEY w)) 50;
         Print diag; Print NoDataLine], inr tt)
  /\ posted (trace (check_market w)) = []
  /\ (configured w = true -> snd (run w) = 0).
Proof.
  intros H.
  assert (Hg : get_twelvedata_price w
               = ([HttpGet SYMBOL INTERVAL (default "" (API_KEY w)) 50; Print diag],
                  inr None)).
  { unfold get_twelvedata_price.
    destruct H as [e He Hx | msg He | msg He]; rewrite He.
    - destruct e; try discriminate Hx; reflexivity.
    - reflexivity.
    - reflexivity. }
  assert (Hc : check_market w
               = ([Print FetchingLine;
                   HttpGet SYMBOL INTERVAL (default "" (API_KEY w)) 50;
                   Print diag; Print NoDataLine], inr tt)).
  { unfold check_market. rewrite Hg. reflexivity. }
  split; [exact Hg | split; [exact Hc | split]].
  - rewrite Hc. reflexivity.
  - intros Hconf. unfold run. cbn [snd].
    destruct (configured_script w Hconf) as [_ ->].
    rewrite Hc. reflexivity.
Qed.

Lemma fetch_failure_is_soft_witness :
  check_market
    (World (env3 "t" "c" "k") (inl (RequestException "timed out")) None)
  = ([Print FetchingLine; HttpGet SYMBOL INTERVAL "k" 50;
      Print (ApiRequestFailedLine (RequestException "timed out"));
      Print NoDataLine], inr tt)
  /\ snd (run (World (env3 "t" "c" "k")
                     (inl (RequestException "timed out")) None)) = 0.
Proof.
  destruct (fetch_failure_is_soft
              (World (env3 "t" "c" "k") (inl (RequestException "timed out")) None)
              (ApiRequestFailedLine (RequestException "timed out")))
    as (_ & Hc & _ & Hx).
  - apply fetch_raises; reflexivity.
  - split; [exact Hc | apply Hx; reflexivity].
Defined.

End Check.

(** ** [calculate_rsi] on the store: no hidden state, no mutation *)

Section StoreFacts.

Lemma wp_bind {A B} (m : Store.St A) (k : A -> Store.St B) (h : gmap positive Store.obj)
      (post : gmap positive Store.obj -> B -> Prop) :
  Store.wp m h (fun h' a => Store.wp (k a) h' post) -> Store.wp (Store.st_bind m k) h post.
Proof. unfold Store.wp, Store.st_bind. now destruct (m h). Qed.

Lemma wp_ret {A} (a : A) (h : gmap positive Store.obj)
      (post : gmap positive Store.obj -> A -> Prop) :
  post h a -> Store.wp (Store.st_ret a) h post.
Proof. trivial. Qed.

Lemma wp_alloc (o : Store.obj) (h : gmap positive Store.obj)
      (post : gmap positive Store.obj -> positive -> Prop) :
  (forall h' r, h ⊆ h' -> h' !! r = Some o -> post h' r) ->
  Store.wp (Store.alloc o) h post.
Proof.
  intros H. unfold Store.wp, Store.alloc. cbn. apply H.
  - apply insert_subseteq, not_elem_of_dom, is_fresh.
  - apply lookup_insert_eq.
Qed.

Lemma floats_at_lookup (h : gmap positive Store.obj) (l : positive) (v : list float) :
  h !! l = Some (Store.FloatSeries v) -> Store.floats_at h l = v.
Proof. intros H. unfold Store.floats_at. now rewrite H. Qed.

Lemma bools_at_lookup (h : gmap positive Store.obj) (l : positive) (v : list bool) :
  h !! l = Some (Store.BoolSeries v) -> Store.bools_at h l = v.
Proof. intros H. unfold Store.bools_at. now rewrite H. Qed.

Lemma wp_unary (f : list float -> list float) (l : positive)
      (h : gmap positive Store.obj) (v : list float)
      (post : gmap positive Store.obj -> positive -> Prop) :
  h !! l = Some (Store.FloatSeries v) ->
  (forall h' r, h ⊆ h' -> h' !! r = Some (Store.FloatSeries (f v)) -> post h' r) ->
  Store.wp (Store.unary f l) h post.
Proof.
  intros Hl H. unfold Store.unary. apply wp_bind. unfold Store.wp at 1, Store.read_floats.
  cbn. rewrite (floats_at_lookup h l v Hl). now apply wp_alloc.
Qed.

Lemma wp_compare (mk : list float -> float -> list bool)
      (l : positive) (c : float) (h : gmap positive Store.obj) (v : list float)
      (post : gmap positive Store.obj -> positive -> Prop) :
  h !! l = Some (Store.FloatSeries v) ->
  (forall h' r, h ⊆ h' -> h' !! r = Some (Store.BoolSeries (mk v c)) -> post h' r) ->
  Store.wp (Store.st_bind (Store.read_floats l) (fun v => Store.alloc (Store.BoolSeries (mk v c)))) h post.
Proof.
  intros Hl H. apply wp_bind. unfold Store.wp at 1, Store.read_floats.
  cbn. rewrite (floats_at_lookup h l v Hl). now apply wp_alloc.
Qed.

Lemma wp_where (l cond : positive) (other : float) (h : gmap positive Store.obj)
      (v : list float) (b : list bool)
      (post : gmap positive Store.obj -> positive -> Prop) :
  h !! l = Some (Store.FloatSeries v) -> h !! cond = Some (Store.BoolSeries b) ->
  (forall h' r, h ⊆ h' ->
                h' !! r = Some (Store.FloatSeries (Series.where_ v b other)) ->
                post h' r) ->
  Store.wp (Store.s_where l cond other) h post.
Proof.
  intros Hl Hc H. unfold Store.s_where. apply wp_bind. unfold Store.wp at 1, Store.read_floats.
  cbn. apply wp_bind. unfold Store.wp at 1, Store.read_bools. cbn.
  rewrite (floats_at_lookup h l v Hl), (bools_at_lookup h cond b Hc).
  now apply wp_alloc.
Qed.

Lemma wp_div (a b : positive) (h : gmap positive Store.obj) (x y : list float)
      (post : gmap positive Store.obj -> positive -> Prop) :
  h !! a = Some (Store.FloatSeries x) -> h !! b = Some (Store.FloatSeries y) ->
  (forall h' r, h ⊆ h' -> h' !! r = Some (Store.FloatSeries (Series.div x y)) ->
                post h' r) ->
  Store.wp (Store.s_div a b) h post.
Proof.
  intros Ha Hb H. unfold Store.s_div. apply wp_bind. unfold Store.wp at 1, Store.read_floats.
  cbn. apply wp_bind. unfold Store.wp at 1, Store.read_floats. cbn.
  rewrite (floats_at_lookup h a x Ha), (floats_at_lookup h b y Hb).
  now apply wp_alloc.
Qed.

(** Carry every known object over to the grown store. *)
Ltac grow Hsub :=
  match type of Hsub with
  | ?h ⊆ ?h' =>
      repeat match goal with
        | H : h !! ?l = Some ?o |- _ =>
            apply (fun H0 => lookup_weaken h h' l o H0 Hsub) in H
        | H : ?h0 ⊆ h |- _ =>
            apply (fun H0 => transitivity (R := (⊆)) H0 Hsub) in H
        end
  end.

Lemma calculate_rsi_on_store (h : gmap positive Store.obj) (series : positive)
      (v : list float) (P : positive) :
  h !! series = Some (Store.FloatSeries v) ->
  Store.wp (Store.calculate_rsi series P) h
     (fun h' r => h ⊆ h' /\ h' !! r = Some (Store.FloatSeries (calculate_rsi v P))).
Proof.
  intros Hs. unfold Store.calculate_rsi.
  assert (H0 : h ⊆ h) by reflexivity. revert H0 Hs.
  generalize h at 2 3 4. intros h0 H0 Hs.
  apply wp_bind. eapply wp_unary; [exact Hs |]. intros h1 delta S1 Hdelta.
  grow S1.
  apply wp_bind. eapply wp_compare; [exact Hdelta |]. intros h2 pos S2 Hpos.
  grow S2.
  apply wp_bind. eapply wp_where; [exact Hdelta | exact Hpos |].
  intros h3 gain S3 Hgain. grow S3.
  apply wp_bind. eapply wp_compare; [exact Hdelta |]. intros h4 negv S4 Hnegv.
  grow S4.
  apply wp_bind. eapply wp_where; [exact Hdelta | exact Hnegv |].
  intros h5 kept S5 Hkept. grow S5.
  apply wp_bind. eapply wp_unary; [exact Hkept |]. intros h6 loss S6 Hloss.
  grow S6.
  apply wp_bind. eapply wp_unary; [exact Hgain |]. intros h7 ag S7 Hag.
  grow S7.
  apply wp_bind. eapply wp_unary; [exact Hloss |]. intros h8 al S8 Hal.
  grow S8.
  apply wp_bind. eapply wp_div; [exact Hag | exact Hal |]. intros h9 rs S9 Hrs.
  grow S9.
  apply wp_bind. eapply wp_unary; [exact Hrs |]. intros h10 t1 S10 Ht1.
  grow S10.
  apply wp_bind. eapply wp_unary; [exact Ht1 |]. intros h11 t2 S11 Ht2.
  grow S11.
  apply wp_bind. eapply wp_unary; [exact Ht2 |]. intros h12 rsi S12 Hrsi.
  grow S12.
  apply wp_ret. split; [exact H0 | exact Hrsi].
Qed.

(** C9: the result of [calculate_rsi] is a function of the contents of the
    input series and of the period alone -- two invocations on equal
    sequences, in whatever stores, return equal sequences -- and the call
    leaves every object that existed before it, the input series included,
    as it was. *)
Theorem calculate_rsi_deterministic_and_pure
    (h1 h2 : gmap positive Store.obj) (s1 s2 : positive) (v : list float)
    (P : positive) :
  h1 !! s1 = Some (Store.FloatSeries v) ->
  h2 !! s2 = Some (Store.FloatSeries v) ->
  let r1 := Store.calculate_rsi s1 P h1 in
  let r2 := Store.calculate_rsi s2 P h2 in
  Store.floats_at (fst r1) (snd r1) = Store.floats_at (fst r2) (snd r2)
  /\ fst r1 !! snd r1 = Some (Store.FloatSeries (calculate_rsi v P))
  /\ (forall l o, h1 !! l = Some o -> fst r1 !! l = Some o)
  /\ fst r1 !! s1 = Some (Store.FloatSeries v).
Proof.
  intros H1 H2 r1 r2.
  destruct (calculate_rsi_on_store h1 s1 v P H1) as [Hsub1 Hr1].
  destruct (calculate_rsi_on_store h2 s2 v P H2) as [Hsub2 Hr2].
  fold r1 in Hsub1, Hr1. fold r2 in Hsub2, Hr2.
  split; [| split; [exact Hr1 | split]].
  - now rewrite (floats_at_lookup _ _ _ Hr1), (floats_at_lookup _ _ _ Hr2).
  - intros l o Hl. exact (lookup_weaken _ _ _ _ Hl Hsub1).
  - exact (lookup_weaken _ _ _ _ H1 Hsub1).
Qed.

Lemma calculate_rsi_deterministic_and_pure_witness :
  let h1 : gmap positive Store.obj := {[ 1%positive := Store.FloatSeries (prices [4; 5; 3]) ]} in
  let h2 : gmap positive Store.obj :=
    {[ 1%positive := Store.BoolSeries [true]; 7%positive := Store.FloatSeries (prices [4; 5; 3]) ]} in
  Store.floats_at (fst (Store.calculate_rsi 1 14 h1)) (snd (Store.calculate_rsi 1 14 h1))
  = Store.floats_at (fst (Store.calculate_rsi 7 14 h2)) (snd (Store.calculate_rsi 7 14 h2))
  /\ fst (Store.calculate_rsi 1 14 h1) !! 1%positive
     = Some (Store.FloatSeries (prices [4; 5; 3])).
Proof.
  intros h1 h2.
  destruct (calculate_rsi_deterministic_and_pure h1 h2 1 7 (prices [4; 5; 3]) 14)
    as (Heq & _ & _ & Hin); [reflexivity | reflexivity |].
  split; [exact Heq | exact Hin].
Defined.

End StoreFacts.

(** ** The range of the RSI *)

Section Range.

Import Series.

Local Open Scope Q_scope.

Lemma of_Q_pos (q : Q) :
  0 < q -> exists n d, of_Q q = Fin false n d /\ toQ (Fin false n d) == q.
Proof.
  intros Hq. pose proof (toQ_of_Q q) as Hv.
  destruct (of_Q_cases q) as [[Hz _] | [[_ (n & d & E)] | [Hn _]]].
  - rewrite Hz in Hq. now apply Qlt_irrefl in Hq.
  - rewrite E in Hv. eauto.
  - exfalso. apply (Qlt_irrefl 0). now apply Qlt_trans with q.
Qed.

Lemma of_Q_finite (q : Q) : is_finite (of_Q q) = true.
Proof.
  destruct (of_Q_cases q) as [[_ ->] | [[_ (n & d & ->)] | [_ (n & d & ->)]]];
    reflexivity.
Qed.

Lemma toQ_pos (n d : positive) : 0 < toQ (Fin false n d).
Proof. unfold Qlt; simpl. lia. Qed.

Lemma fmul_pos (n d m e : positive) :
  exists k c, (Fin false n d * Fin false m e)%F = Fin false k c.
Proof.
  cbn [fmul]. destruct (of_Q_pos (toQ (Fin false n d) * toQ (Fin false m e)))
    as (k & c & E & _); [| eauto].
  apply Qmult_lt_0_compat; apply toQ_pos.
Qed.

Lemma fadd_pos (n d m e : positive) :
  exists k c, (Fin false n d + Fin false m e)%F = Fin false k c.
Proof.
  cbn [fadd]. destruct (of_Q_pos (toQ (Fin false n d) + toQ (Fin false m e)))
    as (k & c & E & _); [| eauto].
  pose proof (toQ_pos n d). pose proof (toQ_pos m e). lra.
Qed.

Lemma nonneg_fmul (a x : float) :
  nonneg_or_nan a = true -> nonneg_or_nan x = true ->
  nonneg_or_nan (a * x)%F = true.
Proof.
  destruct a as [| [] | sa | [] n d], x as [| [] | sx | [] m e];
    try discriminate; try reflexivity; intros _ _.
  destruct (fmul_pos n d m e) as (k & c & ->). reflexivity.
Qed.

Lemma nonneg_fadd (a x : float) :
  nonneg_or_nan a = true -> nonneg_or_nan x = true ->
  nonneg_or_nan (a + x)%F = true.
Proof.
  destruct a as [| [] | sa | [] n d], x as [| [] | sx | [] m e];
    try discriminate; try reflexivity; intros _ _.
  - cbn. now destruct (Bool.eqb sa sx).
  - destruct (fadd_pos n d m e) as (k & c & ->). reflexivity.
Qed.

Lemma nonneg_ewm_step (P : positive) (y x : float) :
  nonneg_or_nan y = true -> nonneg_or_nan x = true ->
  nonneg_or_nan (ewm_step (alpha_of (com_of P)) y x) = true.
Proof.
  intros Hy Hx. unfold ewm_step. apply nonneg_fadd; apply nonneg_fmul;
    try assumption.
  - destruct (one_minus_alpha P) as [-> | (n & d & ->)]; reflexivity.
  - destruct (alpha_fin P) as (n & d & -> & _). reflexivity.
Qed.

(** A property of the observations that the smoothing step keeps holds of
    every average. *)
Lemma ewm_mean_preserves (p : float -> bool) (com : float) (xs : list float) :
  (forall y x, p y = true -> p x = true ->
               p (ewm_step (alpha_of com) y x) = true) ->
  (forall i x, xs !! i = Some x -> p x = true) ->
  forall i y, ewm_mean com xs !! i = Some y -> p y = true.
Proof.
  intros Hstep Hxs. induction i as [| i IH]; intros y Hy.
  - destruct xs as [| x0 t]; [discriminate |].
    rewrite ewm_mean_lookup_0 in Hy. injection Hy as <-.
    now apply (Hxs 0%nat).
  - assert (Hi : (S i < length xs)%nat).
    { rewrite <- (length_ewm_mean com). now apply lookup_lt_Some with y. }
    destruct (lookup_lt_is_Some_2 xs (S i) Hi) as [x Hx].
    destruct (lookup_lt_is_Some_2 (ewm_mean com xs) i) as [y' Hy'].
    { rewrite length_ewm_mean. lia. }
    rewrite (ewm_mean_lookup_S com xs i y' x Hy' Hx) in Hy.
    injection Hy as <-. apply Hstep; [now apply IH | now apply (Hxs (S i))].
Qed.

Lemma gain_nonneg (s : list float) (i : nat) (x : float) :
  rsi_gain s !! i = Some x -> nonneg_or_nan x = true.
Proof.
  rewrite rsi_gain_eq, list_lookup_fmap.
  destruct (diff s !! i) as [d |]; [| discriminate]. cbn.
  intros H. injection H as <-.
  destruct d as [| [] | [] | [] n e]; reflexivity.
Qed.

Lemma loss_nonneg (s : list float) (i : nat) (x : float) :
  rsi_loss s !! i = Some x -> nonneg_or_nan x = true.
Proof.
  rewrite rsi_loss_eq, list_lookup_fmap.
  destruct (diff s !! i) as [d |]; [| discriminate]. cbn.
  intros H. injection H as <-.
  destruct d as [| [] | [] | [] n e]; reflexivity.
Qed.

Lemma rsi_point_range (g l : float) :
  nonneg_or_nan g = true -> nonneg_or_nan l = true ->
  is_nan (rsi_point g l) = true \/ in_range (rsi_point g l) = true.
Proof.
  destruct g as [| [] | sg | [] n d], l as [| [] | sl | [] m e];
    try discriminate; intros _ _;
    try (left; reflexivity); try (right; destruct sg; reflexivity);
    try (right; destruct sl; reflexivity); try (right; reflexivity).
  right. unfold rsi_point. cbn [fdiv].
  pose proof (toQ_pos n d) as Hg. pose proof (toQ_pos m e) as Hl.
  destruct (of_Q_pos (toQ (Fin false n d) / toQ (Fin false m e)))
    as (n1 & d1 & -> & E1).
  { apply Qlt_shift_div_l; [exact Hl | now rewrite Qmult_0_l]. }
  pose proof (toQ_pos n1 d1) as H1.
  unfold f1 at 1. cbn [fadd].
  assert (H2' : 1 < toQ (Fin false 1 1) + toQ (Fin false n1 d1)).
  { change (toQ (Fin false 1 1)) with 1. lra. }
  destruct (of_Q_pos (toQ (Fin false 1 1) + toQ (Fin false n1 d1)))
    as (n2 & d2 & -> & E2); [lra |].
  rewrite <- E2 in H2'. clear E2.
  unfold f100 at 2. cbn [fdiv].
  assert (H3lo : 0 < toQ (Fin false 100 1) / toQ (Fin false n2 d2)).
  { apply Qlt_shift_div_l; [apply toQ_pos | now rewrite Qmult_0_l]. }
  assert (H3hi : toQ (Fin false 100 1) / toQ (Fin false n2 d2) < 100).
  { apply Qlt_shift_div_r; [apply toQ_pos |].
    change (toQ (Fin false 100 1)) with 100. lra. }
  destruct (of_Q_pos _ H3lo) as (n3 & d3 & -> & E3).
  rewrite <- E3 in H3lo, H3hi. clear E3.
  unfold fsub, f100. cbn [fneg negb fadd].
  pose proof (toQ_fneg (Fin false n3 d3)) as Hneg. cbn [fneg negb] in Hneg.
  unfold in_range. change f0 with (of_Q 0). change f100 with (of_Q 100).
  change (toQ (Fin false 100 1)) with 100.
  apply andb_true_iff. split; apply (proj2 (fle_of_Q _ _)); rewrite Hneg; lra.
Qed.

Lemma avg_gain_nonneg (s : list float) (P : positive) (i : nat) (g : float) :
  rsi_avg_gain s P !! i = Some g -> nonneg_or_nan g = true.
Proof.
  apply (ewm_mean_preserves nonneg_or_nan).
  - apply nonneg_ewm_step.
  - apply gain_nonneg.
Qed.

Lemma avg_loss_nonneg (s : list float) (P : positive) (i : nat) (l : float) :
  rsi_avg_loss s P !! i = Some l -> nonneg_or_nan l = true.
Proof.
  apply (ewm_mean_preserves nonneg_or_nan).
  - apply nonneg_ewm_step.
  - apply loss_nonneg.
Qed.

(** Whatever the prices (NaN and infinities included) and the period, every
    value [calculate_rsi] returns is NaN or lies between 0 and 100. *)
Theorem rsi_is_nan_or_in_range (s : list float) (P : positive) (i : nat) (r : float) :
  calculate_rsi s P !! i = Some r ->
  is_nan r = true \/ in_range r = true.
Proof.
  intros Hr.
  destruct (calculate_rsi_lookup_inv s P i r Hr) as (g & l & Hg & Hl & ->).
  apply rsi_point_range;
    [exact (avg_gain_nonneg s P i g Hg) | exact (avg_loss_nonneg s P i l Hl)].
Qed.

Lemma rsi_is_nan_or_in_range_witness :
  is_nan (Fin false 1300 41) = true \/ in_range (Fin false 1300 41) = true.
Proof.
  apply (rsi_is_nan_or_in_range (prices [4; 5; 3; 6]%Z) 14%positive 2%nat).
  reflexivity.
Defined.

End Range.

(** ** Finite prices: where the RSI is a number *)

Section FinitePrices.

Import Series.

Local Open Scope Q_scope.

Lemma fcompare_finite (a b : float) :
  is_finite a = true -> is_finite b = true ->
  fcompare a b = Some (toQ a ?= toQ b).
Proof. destruct a, b; try discriminate; reflexivity. Qed.

Lemma fsub_finite (a b : float) :
  is_finite a = true -> is_finite b = true -> is_finite (b - a)%F = true.
Proof.
  destruct a as [| | sa | sa n d], b as [| | sb | sb m e];
    try discriminate; intros _ _; unfold fsub; cbn [fneg fadd];
    try reflexivity; try apply of_Q_finite.
  now destruct (Bool.eqb sb (negb sa)).
Qed.

Lemma toQ_fsub (a b : float) :
  is_finite a = true -> is_finite b = true ->
  toQ (b - a)%F == toQ b - toQ a.
Proof.
  destruct a as [| | sa | sa n d], b as [| | sb | sb m e];
    try discriminate; intros _ _; unfold fsub; cbn [fneg fadd].
  - destruct (Bool.eqb sb (negb sa)); reflexivity.
  - change (toQ (Zero sa)) with 0. lra.
  - pose proof (toQ_fneg (Fin sa n d)) as H. cbn [fneg] in H.
    rewrite H. change (toQ (Zero sb)) with 0. lra.
  - rewrite toQ_of_Q. pose proof (toQ_fneg (Fin sa n d)) as H.
    cbn [fneg] in H. rewrite H. lra.
Qed.

(** The sign of a difference of finite values is the order of the operands. *)
Lemma fsub_sign (a b : float) :
  is_finite a = true -> is_finite b = true ->
  (b - a >? f0)%F = (a <? b)%F /\ (b - a <? f0)%F = (b <? a)%F.
Proof.
  intros Ha Hb. pose proof (fsub_finite a b Ha Hb) as Hd.
  pose proof (toQ_fsub a b Ha Hb) as Hv.
  unfold fgt, flt.
  rewrite (fcompare_finite f0 (b - a) eq_refl Hd),
    (fcompare_finite (b - a) f0 Hd eq_refl),
    (fcompare_finite a b Ha Hb), (fcompare_finite b a Hb Ha).
  change (toQ f0) with 0. rewrite Hv. split.
  - destruct (Qcompare_spec 0 (toQ b - toQ a)) as [H | H | H];
      destruct (Qcompare_spec (toQ a) (toQ b)) as [H' | H' | H'];
      try reflexivity; exfalso; lra.
  - destruct (Qcompare_spec (toQ b - toQ a) 0) as [H | H | H];
      destruct (Qcompare_spec (toQ b) (toQ a)) as [H' | H' | H'];
      try reflexivity; exfalso; lra.
Qed.

Lemma feqb_flt (a b : float) :
  is_finite a = true -> is_finite b = true ->
  feqb a b = negb (a <? b)%F && negb (b <? a)%F.
Proof.
  intros Ha Hb. unfold feqb, flt.
  rewrite (fcompare_finite a b Ha Hb), (fcompare_finite b a Hb Ha).
  rewrite <- (Qcompare_antisym (toQ a) (toQ b)).
  now destruct (toQ a ?= toQ b).
Qed.

Lemma all_finite_lookup (s : list float) (i : nat) (x : float) :
  all_finite s = true -> s !! i = Some x -> is_finite x = true.
Proof.
  unfold all_finite. rewrite forallb_forall. intros H Hx.
  apply H, list_elem_of_In, list_elem_of_lookup. eauto.
Qed.

(** What gain and loss are at an index past the first, in terms of the two
    prices around it. *)
Lemma gain_loss_lookup (s : list float) (j : nat) (a b : float) :
  s !! j = Some a -> s !! S j = Some b ->
  rsi_gain s !! S j = Some (if (b - a >? f0)%F then (b - a)%F else f0)
  /\ rsi_loss s !! S j = Some (- (if (b - a <? f0)%F then (b - a)%F else f0))%F.
Proof.
  intros Ha Hb. rewrite rsi_gain_eq, rsi_loss_eq, !list_lookup_fmap,
    (diff_lookup_S s j a b Ha Hb). split; reflexivity.
Qed.

Lemma gain_loss_lookup_0 (x : float) (t : list float) :
  rsi_gain (x :: t) !! 0%nat = Some f0
  /\ rsi_loss (x :: t) !! 0%nat = Some (Zero true).
Proof. split; reflexivity. Qed.

Lemma finite_pos_of_gt (d : float) :
  is_finite d = true -> (d >? f0)%F = true -> finite_pos d = true.
Proof. destruct d as [| | | [] n e]; try discriminate; reflexivity. Qed.

Lemma finite_pos_of_lt (d : float) :
  is_finite d = true -> (d <? f0)%F = true -> finite_pos (- d)%F = true.
Proof. destruct d as [| | | [] n e]; try discriminate; reflexivity. Qed.

Lemma finite_pos_nonneg (x : float) :
  finite_pos x = true -> finite_nonneg x = true.
Proof. destruct x as [| | | [] n e]; try discriminate; reflexivity. Qed.

Lemma finite_pos_not_zero (x : float) :
  finite_pos x = true -> is_zero x = false.
Proof. destruct x as [| | | [] n e]; try discriminate; reflexivity. Qed.

(** On finite prices every gain and every loss is zero or a positive finite
    number, and it is zero exactly when the price did not move that way. *)
Lemma gain_finite (s : list float) (i : nat) (x : float) :
  all_finite s = true -> rsi_gain s !! i = Some x -> finite_nonneg x = true.
Proof.
  intros Hf Hx. destruct i as [| j].
  - destruct s as [| x0 t]; [discriminate |].
    destruct (gain_loss_lookup_0 x0 t) as [E _]. rewrite E in Hx.
    now injection Hx as <-.
  - assert (Hi : (S j < length s)%nat).
    { rewrite <- length_rsi_gain. now apply lookup_lt_Some with x. }
    destruct (lookup_lt_is_Some_2 s j ltac:(lia)) as [a Ha].
    destruct (lookup_lt_is_Some_2 s (S j) Hi) as [b Hb].
    destruct (gain_loss_lookup s j a b Ha Hb) as [E _]. rewrite E in Hx.
    injection Hx as <-.
    pose proof (fsub_finite a b (all_finite_lookup s j a Hf Ha)
                  (all_finite_lookup s (S j) b Hf Hb)) as Hd.
    destruct (b - a >? f0)%F eqn:Hgt; [| reflexivity].
    now apply finite_pos_nonneg, finite_pos_of_gt.
Qed.

Lemma loss_finite (s : list float) (i : nat) (x : float) :
  all_finite s = true -> rsi_loss s !! i = Some x -> finite_nonneg x = true.
Proof.
  intros Hf Hx. destruct i as [| j].
  - destruct s as [| x0 t]; [discriminate |].
    destruct (gain_loss_lookup_0 x0 t) as [_ E]. rewrite E in Hx.
    now injection Hx as <-.
  - assert (Hi : (S j < length s)%nat).
    { rewrite <- length_rsi_loss. now apply lookup_lt_Some with x. }
    destruct (lookup_lt_is_Some_2 s j ltac:(lia)) as [a Ha].
    destruct (lookup_lt_is_Some_2 s (S j) Hi) as [b Hb].
    destruct (gain_loss_lookup s j a b Ha Hb) as [_ E]. rewrite E in Hx.
    injection Hx as <-.
    pose proof (fsub_finite a b (all_finite_lookup s j a Hf Ha)
                  (all_finite_lookup s (S j) b Hf Hb)) as Hd.
    destruct (b - a <? f0)%F eqn:Hlt; [| reflexivity].
    now apply finite_pos_nonneg, finite_pos_of_lt.
Qed.

Lemma one_minus_alpha_pos (P : positive) :
  (1 < P)%positive ->
  exists n d, (f1 - alpha_of (com_of P))%F = Fin false n d.
Proof.
  intros HP. destruct (alpha_fin P) as (n & d & -> & Hv).
  unfold fsub, f1. cbn [fneg fadd negb].
  pose proof (toQ_fneg (Fin false n d)) as Hneg. cbn [fneg negb] in Hneg.
  destruct (of_Q_pos (toQ (Fin false 1 1) + toQ (Fin true n d)))
    as (k & c & E & _); [| eauto].
  rewrite Hneg, Hv. unfold Qlt; simpl. lia.
Qed.

Lemma fmul_pos_nonneg (n d : positive) (x : float) :
  finite_nonneg x = true ->
  finite_nonneg (Fin false n d * x)%F = true
  /\ is_zero (Fin false n d * x)%F = is_zero x
  /\ (finite_pos x = true -> finite_pos (Fin false n d * x)%F = true).
Proof.
  destruct x as [| | sx | [] m e]; try discriminate; intros _.
  - repeat split; try discriminate.
  - destruct (fmul_pos n d m e) as (k & c & ->). repeat split.
Qed.

Lemma fadd_nonneg (u v : float) :
  finite_nonneg u = true -> finite_nonneg v = true ->
  finite_nonneg (u + v)%F = true
  /\ is_zero (u + v)%F = is_zero u && is_zero v
  /\ (finite_pos v = true -> finite_pos (u + v)%F = true).
Proof.
  destruct u as [| | su | [] n d], v as [| | sv | [] m e];
    try discriminate; intros _ _.
  - cbn. destruct (Bool.eqb su sv); repeat split; try discriminate.
  - repeat split; try discriminate.
  - repeat split; try discriminate.
  - destruct (fadd_pos n d m e) as (k & c & ->). repeat split.
Qed.

Lemma ewm_step_finite (P : positive) (y x : float) :
  finite_nonneg y = true -> finite_nonneg x = true ->
  finite_nonneg (ewm_step (alpha_of (com_of P)) y x) = true
  /\ (finite_pos x = true ->
      finite_pos (ewm_step (alpha_of (com_of P)) y x) = true)
  /\ ((1 < P)%positive ->
      is_zero (ewm_step (alpha_of (com_of P)) y x) = is_zero y && is_zero x).
Proof.
  intros Hy Hx. unfold ewm_step.
  destruct (alpha_fin P) as (n & d & Ea & _).
  destruct (fmul_pos_nonneg n d x Hx) as (Hax & Zax & Pax).
  rewrite <- Ea in Hax, Zax, Pax.
  assert (Hby : finite_nonneg ((f1 - alpha_of (com_of P)) * y)%F = true).
  { destruct (one_minus_alpha P) as [-> | (k & c & ->)].
    - destruct y as [| | sy | [] m e]; try discriminate; reflexivity.
    - now apply fmul_pos_nonneg. }
  destruct (fadd_nonneg _ _ Hby Hax) as (Hs & Zs & Ps).
  split; [exact Hs | split].
  - intros Hp. apply Ps, Pax, Hp.
  - intros HP. rewrite Zs, Zax.
    destruct (one_minus_alpha_pos P HP) as (k & c & ->).
    destruct (fmul_pos_nonneg k c y Hy) as (_ & -> & _). reflexivity.
Qed.

Lemma ewm_step_finite_nonneg (P : positive) (y x : float) :
  finite_nonneg y = true -> finite_nonneg x = true ->
  finite_nonneg (ewm_step (alpha_of (com_of P)) y x) = true.
Proof. intros Hy Hx. now apply ewm_step_finite. Qed.

(** With a period above 1 an average is zero exactly when every observation
    so far is zero. *)
Lemma ewm_mean_zero_iff (P : positive) (xs : list float) :
  (1 < P)%positive ->
  (forall i x, xs !! i = Some x -> finite_nonneg x = true) ->
  forall i y, ewm_mean (com_of P) xs !! i = Some y ->
    (is_zero y = true
     <-> forall k x, (k <= i)%nat -> xs !! k = Some x -> is_zero x = true).
Proof.
  intros HP Hxs. induction i as [| i IH]; intros y Hy.
  - destruct xs as [| x0 t]; [discriminate |].
    rewrite ewm_mean_lookup_0 in Hy. injection Hy as <-. split.
    + intros Hz k x Hk Hx. assert (k = 0%nat) as -> by lia.
      cbn in Hx. now injection Hx as <-.
    + intros H. now apply (H 0%nat).
  - assert (Hi : (S i < length xs)%nat).
    { rewrite <- (length_ewm_mean (com_of P)). now apply lookup_lt_Some with y. }
    destruct (lookup_lt_is_Some_2 xs (S i) Hi) as [x Hx].
    destruct (lookup_lt_is_Some_2 (ewm_mean (com_of P) xs) i) as [y' Hy'].
    { rewrite length_ewm_mean. lia. }
    rewrite (ewm_mean_lookup_S (com_of P) xs i y' x Hy' Hx) in Hy.
    injection Hy as <-.
    assert (Hfy : finite_nonneg y' = true).
    { apply (ewm_mean_preserves finite_nonneg (com_of P) xs
               (ewm_step_finite_nonneg P) Hxs i y' Hy'). }
    destruct (ewm_step_finite P y' x Hfy (Hxs (S i) x Hx)) as (_ & _ & Hz).
    rewrite (Hz HP), andb_true_iff, (IH y' Hy'). split.
    + intros [Hall Hlast] k x' Hk Hx'.
      destruct (Nat.eq_dec k (S i)) as [-> | Hne].
      * rewrite Hx in Hx'. now injection Hx' as <-.
      * apply (Hall k x'); [lia | exact Hx'].
    + intros H. split.
      * intros k x' Hk Hx'. apply (H k x'); [lia | exact Hx'].
      * now apply (H (S i) x).
Qed.

Lemma monotone_cons (r : float -> float -> bool) (x y : float) (t : list float) :
  monotone r (x :: y :: t) = r x y && monotone r (y :: t).
Proof. reflexivity. Qed.

Lemma monotone_take_iff (r : float -> float -> bool) (s : list float) (i : nat) :
  monotone r (take (S i) s) = true
  <-> forall j a b, (j < i)%nat -> s !! j = Some a -> s !! S j = Some b ->
                    r a b = true.
Proof.
  revert i. induction s as [| x t IH]; intros i.
  - split; [intros _ j a b _ Ha; discriminate Ha | reflexivity].
  - destruct i as [| i].
    + cbn [take]. rewrite take_0. split; [intros _ j a b Hj; lia | reflexivity].
    + destruct t as [| y t'].
      * split; [intros _ j a b _ _ Hb; discriminate Hb | reflexivity].
      * change (take (S (S i)) (x :: y :: t')) with (x :: y :: take i t').
        rewrite monotone_cons.
        change (y :: take i t') with (take (S i) (y :: t')).
        rewrite andb_true_iff, IH. split.
        -- intros [Hxy Hrest] j a b Hj Ha Hb. destruct j as [| j].
           ++ cbn in Ha, Hb. injection Ha as <-. injection Hb as <-. exact Hxy.
           ++ apply (Hrest j a b); [lia | exact Ha | exact Hb].
        -- intros H. split.
           ++ apply (H 0%nat x y); [lia | reflexivity | reflexivity].
           ++ intros j a b Hj Ha Hb. apply (H (S j) a b); [lia | exact Ha | exact Hb].
Qed.

Lemma not_nan_100_div (t : float) :
  is_nan t = false -> is_nan (f100 - f100 / t)%F = false.
Proof.
  destruct t as [| [] | [] | st n d]; try discriminate; intros _;
    try reflexivity.
  unfold f100 at 2. cbn [fdiv].
  destruct (of_Q_cases (toQ (Fin false 100 1) / toQ (Fin st n d)))
    as [[_ ->] | [[_ (k & c & ->)] | [_ (k & c & ->)]]]; try reflexivity;
    unfold fsub, f100; cbn [fneg fadd];
    match goal with
    | |- is_nan (of_Q ?q) = false =>
        destruct (of_Q_cases q)
          as [[_ ->] | [[_ (k' & c' & ->)] | [_ (k' & c' & ->)]]]; reflexivity
    end.
Qed.

(** For finite non-negative averages the RSI is NaN exactly when both are
    zero. *)
Lemma rsi_point_nan_iff (g l : float) :
  finite_nonneg g = true -> finite_nonneg l = true ->
  is_nan (rsi_point g l) = is_zero g && is_zero l.
Proof.
  destruct g as [| | sg | [] n d], l as [| | sl | [] m e];
    try discriminate; intros _ _; try (destruct sg; reflexivity);
    try (destruct sl; reflexivity); try reflexivity.
  unfold rsi_point. cbn [is_zero andb]. apply not_nan_100_div.
  cbn [fdiv].
  destruct (of_Q_cases (toQ (Fin false n d) / toQ (Fin false m e)))
    as [[_ ->] | [[_ (k & c & ->)] | [_ (k & c & ->)]]]; try reflexivity;
    unfold f1; cbn [fadd];
    match goal with
    | |- is_nan (of_Q ?q) = false =>
        destruct (of_Q_cases q)
          as [[_ ->] | [[_ (k' & c' & ->)] | [_ (k' & c' & ->)]]]; reflexivity
    end.
Qed.

End FinitePrices.

(** ** Finite prices: when the RSI is NaN, and what it is on a trend *)

Section Trends.

Import Series.

Lemma avg_gain_finite (s : list float) (P : positive) (i : nat) (g : float) :
  all_finite s = true -> rsi_avg_gain s P !! i = Some g ->
  finite_nonneg g = true.
Proof.
  intros Hf. apply (ewm_mean_preserves finite_nonneg).
  - apply ewm_step_finite_nonneg.
  - intros k x. now apply gain_finite.
Qed.

Lemma avg_loss_finite (s : list float) (P : positive) (i : nat) (l : float) :
  all_finite s = true -> rsi_avg_loss s P !! i = Some l ->
  finite_nonneg l = true.
Proof.
  intros Hf. apply (ewm_mean_preserves finite_nonneg).
  - apply ewm_step_finite_nonneg.
  - intros k x. now apply loss_finite.
Qed.

(** Gain and loss at an index past the first are both zero exactly when the
    price there equals the one before. *)
Lemma gain_loss_zero_iff (s : list float) (j : nat) (a b x y : float) :
  all_finite s = true -> s !! j = Some a -> s !! S j = Some b ->
  rsi_gain s !! S j = Some x -> rsi_loss s !! S j = Some y ->
  is_zero x && is_zero y = feqb a b.
Proof.
  intros Hf Ha Hb Hx Hy.
  pose proof (all_finite_lookup s j a Hf Ha) as Fa.
  pose proof (all_finite_lookup s (S j) b Hf Hb) as Fb.
  destruct (gain_loss_lookup s j a b Ha Hb) as [Eg El].
  rewrite Eg in Hx. rewrite El in Hy. injection Hx as <-. injection Hy as <-.
  pose proof (fsub_finite a b Fa Fb) as Fd.
  destruct (fsub_sign a b Fa Fb) as [Sg Sl].
  rewrite (feqb_flt a b Fa Fb), <- Sg, <- Sl.
  destruct (b - a >? f0)%F eqn:Hgt, (b - a <? f0)%F eqn:Hlt; cbn [negb andb];
    try reflexivity.
  - now rewrite (finite_pos_not_zero _ (finite_pos_of_gt _ Fd Hgt)).
  - now rewrite (finite_pos_not_zero _ (finite_pos_of_gt _ Fd Hgt)).
  - rewrite (finite_pos_not_zero _ (finite_pos_of_lt _ Fd Hlt)).
    apply andb_false_r.
Qed.

Lemma steady_prefix_nan (s : list float) (P : positive) (i : nat) :
  (1 < P)%positive -> all_finite s = true -> (i < length s)%nat ->
  (calculate_rsi s P !! i = Some NaN <-> steady (take (S i) s) = true).
Proof.
  intros HP Hf Hi.
  destruct (lookup_lt_is_Some_2 (rsi_avg_gain s P) i) as [g Hg].
  { unfold rsi_avg_gain. now rewrite length_ewm_mean, length_rsi_gain. }
  destruct (lookup_lt_is_Some_2 (rsi_avg_loss s P) i) as [l Hl].
  { unfold rsi_avg_loss. now rewrite length_ewm_mean, length_rsi_loss. }
  pose proof (avg_gain_finite s P i g Hf Hg) as Fg.
  pose proof (avg_loss_finite s P i l Hf Hl) as Fl.
  rewrite (calculate_rsi_lookup s P i g l Hg Hl).
  assert (Hnan : Some (rsi_point g l) = Some NaN
                 <-> is_zero g && is_zero l = true).
  { rewrite <- (rsi_point_nan_iff g l Fg Fl). split.
    - intros H. injection H as ->. reflexivity.
    - intros H. destruct (rsi_point g l); try discriminate H. reflexivity. }
  rewrite Hnan, andb_true_iff.
  rewrite (ewm_mean_zero_iff P (rsi_gain s) HP
             (fun k x => gain_finite s k x Hf) i g Hg).
  rewrite (ewm_mean_zero_iff P (rsi_loss s) HP
             (fun k x => loss_finite s k x Hf) i l Hl).
  unfold steady. rewrite monotone_take_iff. split.
  - intros [HG HL] j a b Hj Ha Hb.
    destruct (gain_loss_lookup s j a b Ha Hb) as [Eg El].
    rewrite <- (gain_loss_zero_iff s j a b _ _ Hf Ha Hb Eg El).
    rewrite (HG (S j) _ ltac:(lia) Eg), (HL (S j) _ ltac:(lia) El). reflexivity.
  - intros H. split; intros k x Hk Hx.
    + destruct k as [| j].
      * destruct s as [| x0 t]; [discriminate |].
        destruct (gain_loss_lookup_0 x0 t) as [E _]. rewrite E in Hx.
        now injection Hx as <-.
      * destruct (lookup_lt_is_Some_2 s j ltac:(lia)) as [a Ha].
        destruct (lookup_lt_is_Some_2 s (S j) ltac:(lia)) as [b Hb].
        destruct (gain_loss_lookup s j a b Ha Hb) as [Eg El].
        pose proof (gain_loss_zero_iff s j a b _ _ Hf Ha Hb Hx El) as Hz.
        rewrite (H j a b ltac:(lia) Ha Hb) in Hz.
        now apply andb_true_iff in Hz.
    + destruct k as [| j].
      * destruct s as [| x0 t]; [discriminate |].
        destruct (gain_loss_lookup_0 x0 t) as [_ E]. rewrite E in Hx.
        now injection Hx as <-.
      * destruct (lookup_lt_is_Some_2 s j ltac:(lia)) as [a Ha].
        destruct (lookup_lt_is_Some_2 s (S j) ltac:(lia)) as [b Hb].
        destruct (gain_loss_lookup s j a b Ha Hb) as [Eg El].
        pose proof (gain_loss_zero_iff s j a b _ _ Hf Ha Hb Eg Hx) as Hz.
        rewrite (H j a b ltac:(lia) Ha Hb) in Hz.
        now apply andb_true_iff in Hz.
Qed.









(** On a series that never falls, or never rises, no two RSI values satisfy
    either rule: the crossover block posts nothing. *)
Theorem monotone_series_posts_nothing
    (w : world) (s : list float) (P : positive) (i j : nat)
    (prev curr price : float) :
  increasing s = true \/ decreasing s = true ->
  calculate_rsi s P !! i = Some prev ->
  calculate_rsi s P !! j = Some curr ->
  buy_rule prev curr = false /\ sell_rule prev curr = false
  /\ posted (trace (crossover w prev curr price)) = [].
Proof.
  intros Hm Hp Hc.
  assert (H : buy_rule prev curr = false /\ sell_rule prev curr = false).
  { unfold buy_rule, sell_rule. destruct Hm as [Hm | Hm].
    - destruct (increasing_rsi_values s P i prev Hm Hp) as [-> | ->];
        destruct (increasing_rsi_values s P j curr Hm Hc) as [-> | ->];
        split; reflexivity.
    - destruct (decreasing_rsi_values s P i prev Hm Hp) as [-> | ->];
        destruct (decreasing_rsi_values s P j curr Hm Hc) as [-> | ->];
        split; reflexivity. }
  destruct H as [Hb Hs]. split; [exact Hb | split; [exact Hs |]].
  rewrite posted_crossover, Hb, Hs. reflexivity.
Qed.

Lemma monotone_series_posts_nothing_witness :
  posted (trace (crossover (World ∅ (inl KeyError) None) f100 f100 f30)) = [].
Proof.
  apply (monotone_series_posts_nothing (World ∅ (inl KeyError) None)
           (prices [1; 2; 2; 5]) 14%positive 2%nat 3%nat f100 f100 f30);
    [left; reflexivity | reflexivity | reflexivity].
Defined.

End Trends.

(** ** Runs of the script *)

Section Runs.

Lemma bind_ok {A B} (t : list event) (a : A) (k : A -> M B) :
  bind (t, inr a) k = (t ++ trace (k a), result (k a)).
Proof. unfold bind, trace, result. now destruct (k a). Qed.

Lemma M_eta {A} (m : M A) : m = (trace m, result m).
Proof. now destruct m. Qed.

Lemma send_outcome (w : world) (m : alert_text) :
  send_telegram_message w m
  = match post_reply w with
    | None => ([HttpPost (default "" (BOT_TOKEN w)) (default "" (CHAT_ID w)) m],
               inr tt)
    | Some e =>
        if is_Exception e
        then ([HttpPost (default "" (BOT_TOKEN w)) (default "" (CHAT_ID w)) m;
               Print (SendFailedLine e)], inr tt)
        else ([HttpPost (default "" (BOT_TOKEN w)) (default "" (CHAT_ID w)) m],
              inl e)
    end.
Proof.
  unfold send_telegram_message. destruct (post_reply w) as [[] |]; reflexivity.
Qed.

(** [send_telegram_message] makes exactly one POST, carrying the two secrets
    and the text; when the POST raises it prints the failure and still
    returns normally. *)
Theorem send_is_best_effort (w : world) (m : alert_text) :
  (forall e, post_reply w = Some e -> is_Exception e = true) ->
  result (send_telegram_message w m) = inr tt
  /\ requests (trace (send_telegram_message w m))
     = [HttpPost (default "" (BOT_TOKEN w)) (default "" (CHAT_ID w)) m]
  /\ printed_failure (trace (send_telegram_message w m)) = post_reply w.
Proof.
  intros Hex. rewrite send_outcome.
  destruct (post_reply w) as [e |] eqn:Hp; [| repeat split].
  rewrite (Hex e eq_refl). repeat split.
Qed.

Lemma send_is_best_effort_witness :
  result (send_telegram_message
            (World (env3 "t" "c" "k") (inl KeyError)
                   (Some (RequestException "refused")))
            (AlertText BUY f30 f80)) = inr tt
  /\ printed_failure
       (trace (send_telegram_message
                 (World (env3 "t" "c" "k") (inl KeyError)
                        (Some (RequestException "refused")))
                 (AlertText BUY f30 f80)))
     = Some (RequestException "refused").
Proof.
  destruct (send_is_best_effort
              (World (env3 "t" "c" "k") (inl KeyError)
                     (Some (RequestException "refused")))
              (AlertText BUY f30 f80)) as (Hr & _ & Hp).
  - intros e He. injection He as <-. reflexivity.
  - split; [exact Hr | exact Hp].
Defined.

Lemma get_cases (w : world) :
  (exists rows, fetched_rows w = Some rows /\ rows <> []
                /\ get_twelvedata_price w
                   = ([HttpGet SYMBOL INTERVAL (default "" (API_KEY w)) 50],
                      inr (Some (reverse rows))))
  \/ (fetched_rows w = None
      /\ ((exists diag,
              get_twelvedata_price w
              = ([HttpGet SYMBOL INTERVAL (default "" (API_KEY w)) 50;
                  Print diag], inr None))
          \/ (exists e, get_reply w = inl e /\ is_Exception e = false
                        /\ get_twelvedata_price w
                           = ([HttpGet SYMBOL INTERVAL (default "" (API_KEY w)) 50],
                              inl e)))).
Proof.
  unfold fetched_rows, get_twelvedata_price.
  destruct (get_reply w) as [e | [[[| r rs] |] msg]].
  - right. split; [reflexivity |]. destruct e; cbn; eauto 6.
  - right. split; [reflexivity |]. left. eauto.
  - cbn -[mapM]. destruct (mapM to_numeric (r :: rs)) as [rows |] eqn:Hm.
    + left. exists rows. split; [reflexivity | split; [| reflexivity]].
      intros ->. apply length_mapM in Hm. discriminate Hm.
    + right. split; [reflexivity |]. left. eauto.
  - right. split; [reflexivity |]. left. eauto.
Qed.

(** When the request does not raise past [Exception], the fetch never raises:
    it makes one GET and returns the provider's records in reverse order
    (oldest first, the provider's first record last) when there is at
    least one and every field is numeric, printing nothing; otherwise it
    prints one diagnostic and returns no data.  It never returns an empty
    frame. *)
Theorem fetch_returns_rows_oldest_first (w : world) :
  (forall e, get_reply w = inl e -> is_Exception e = true) ->
  result (get_twelvedata_price w) = inr (reverse <$> fetched_rows w)
  /\ requests (trace (get_twelvedata_price w))
     = [HttpGet SYMBOL INTERVAL (default "" (API_KEY w)) 50]
  /\ (forall rows, fetched_rows w = Some rows ->
        trace (get_twelvedata_price w)
        = [HttpGet SYMBOL INTERVAL (default "" (API_KEY w)) 50]
        /\ reverse rows <> []
        /\ last (reverse rows) = head rows
        /\ length (reverse rows) = length rows)
  /\ (fetched_rows w = None ->
      exists diag, trace (get_twelvedata_price w)
                   = [HttpGet SYMBOL INTERVAL (default "" (API_KEY w)) 50;
                      Print diag]).
Proof.
  intros Hex.
  destruct (get_cases w)
    as [(rows & Hr & Hne & Hg) | [Hr [(diag & Hg) | (e & He & Hx & _)]]].
  - rewrite Hg, Hr. split; [reflexivity | split; [reflexivity | split]].
    + intros rows' E. injection E as <-.
      split; [reflexivity | split; [| split]].
      * intros H. apply Hne. apply (f_equal reverse) in H.
        now rewrite reverse_involutive in H.
      * apply last_reverse.
      * apply length_reverse.
    + discriminate.
  - rewrite Hg, Hr. split; [reflexivity | split; [reflexivity | split]].
    + discriminate.
    + eauto.
  - rewrite (Hex e He) in Hx. discriminate Hx.
Qed.

Lemma fetch_returns_rows_oldest_first_witness :
  result (get_twelvedata_price
            (World (env3 "t" "c" "k")
                   (inr (Json (Some [flat 3; flat 2; flat 1]) None)) None))
  = inr (Some (reverse [Candle (of_Z 3) (of_Z 3) (of_Z 3) (of_Z 3);
                        Candle (of_Z 2) (of_Z 2) (of_Z 2) (of_Z 2);
                        Candle (of_Z 1) (of_Z 1) (of_Z 1) (of_Z 1)])).
Proof.
  apply (fetch_returns_rows_oldest_first
           (World (env3 "t" "c" "k")
                  (inr (Json (Some [flat 3; flat 2; flat 1]) None)) None)).
  intros e He. discriminate He.
Defined.

Lemma crossover_outcome (w : world) (prev curr price : float) :
  (forall e, post_reply w = Some e -> is_Exception e = true) ->
  crossover w prev curr price
  = if buy_rule prev curr then
      ([HttpPost (default "" (BOT_TOKEN w)) (default "" (CHAT_ID w))
                 (AlertText BUY curr price)]
       ++ match post_reply w with
          | Some e => [Print (SendFailedLine e)]
          | None => []
          end
       ++ [Print BuySentLine], inr tt)
    else if sell_rule prev curr then
      ([HttpPost (default "" (BOT_TOKEN w)) (default "" (CHAT_ID w))
                 (AlertText SELL curr price)]
       ++ match post_reply w with
          | Some e => [Print (SendFailedLine e)]
          | None => []
          end
       ++ [Print SellSentLine], inr tt)
    else ([Print NoCrossoverLine], inr tt).
Proof.
  intros Hex. unfold crossover. rewrite !send_outcome.
  destruct (post_reply w) as [e |]; [rewrite (Hex e eq_refl) |];
    destruct (buy_rule prev curr), (sell_rule prev curr); reflexivity.
Qed.

(** The crossover block never raises when the POST raises nothing past
    [Exception]: it posts one BUY or one SELL text quoting the current RSI and
    price and then prints the matching "Alert Sent" line -- also when the POST
    failed, after the failure line -- or prints "No crossover detected." and
    posts nothing. *)
Theorem crossover_completes (w : world) (prev curr price : float) :
  (forall e, post_reply w = Some e -> is_Exception e = true) ->
  result (crossover w prev curr price) = inr tt
  /\ trace (crossover w prev curr price)
     = (if buy_rule prev curr then
          [HttpPost (default "" (BOT_TOKEN w)) (default "" (CHAT_ID w))
                    (AlertText BUY curr price)]
          ++ match post_reply w with
             | Some e => [Print (SendFailedLine e)]
             | None => []
             end
          ++ [Print BuySentLine]
        else if sell_rule prev curr then
          [HttpPost (default "" (BOT_TOKEN w)) (default "" (CHAT_ID w))
                    (AlertText SELL curr price)]
          ++ match post_reply w with
             | Some e => [Print (SendFailedLine e)]
             | None => []
             end
          ++ [Print SellSentLine]
        else [Print NoCrossoverLine]).
Proof.
  intros Hex. rewrite (crossover_outcome w prev curr price Hex).
  destruct (buy_rule prev curr), (sell_rule prev curr); split; reflexivity.
Qed.

Lemma crossover_completes_witness :
  trace (crossover (World (env3 "t" "c" "k") (inl KeyError)
                          (Some (RequestException "refused")))
                   f30 f80 f100)
  = [HttpPost "t" "c" (AlertText BUY f80 f100);
     Print (SendFailedLine (RequestException "refused"));
     Print BuySentLine].
Proof.
  apply (crossover_completes
           (World (env3 "t" "c" "k") (inl KeyError)
                  (Some (RequestException "refused")))
           f30 f80 f100).
  intros e He. injection He as <-. reflexivity.
Defined.

(** With two rows or more both reads succeed and the check goes on to the
    crossover block with the last two RSI values and the last close. *)
Lemma analyze_two_or_more (w : world) (df : list candle) (n : nat) :
  length df = S (S n) ->
  exists prev curr price,
    calculate_rsi (close_column df) RSI_PERIOD !! n = Some prev
    /\ calculate_rsi (close_column df) RSI_PERIOD !! S n = Some curr
    /\ close_column df !! S n = Some price
    /\ analyze w (Some df)
       = (Print (AnalyzedLine prev curr) :: trace (crossover w prev curr price),
          result (crossover w prev curr price)).
Proof.
  intros Hlen.
  assert (Hc : length (close_column df) = S (S n))
    by (unfold close_column; now rewrite length_fmap).
  assert (Hr : length (calculate_rsi (close_column df) RSI_PERIOD) = S (S n))
    by (now rewrite length_calculate_rsi).
  destruct (lookup_lt_is_Some_2 (calculate_rsi (close_column df) RSI_PERIOD) n
              ltac:(lia)) as [prev Hprev].
  destruct (lookup_lt_is_Some_2 (calculate_rsi (close_column df) RSI_PERIOD) (S n)
              ltac:(lia)) as [curr Hcurr].
  destruct (lookup_lt_is_Some_2 (close_column df) (S n) ltac:(lia))
    as [price Hprice].
  exists prev, curr, price. repeat (split; [assumption |]).
  destruct df as [| c df']; [discriminate Hlen |].
  unfold analyze.
  rewrite (iloc_in_range _ (-1) (Z.of_nat (S n)) curr);
    [| cbn [Z.ltb Z.compare]; rewrite Hr; lia
     | now rewrite Nat2Z.id | lia].
  rewrite bind_ret_l.
  rewrite (iloc_in_range _ (-2) (Z.of_nat n) prev);
    [| cbn [Z.ltb Z.compare]; rewrite Hr; lia
     | now rewrite Nat2Z.id | lia].
  rewrite bind_ret_l.
  rewrite (iloc_in_range _ (-1) (Z.of_nat (S n)) price);
    [| cbn [Z.ltb Z.compare]; rewrite Hc; lia
     | now rewrite Nat2Z.id | lia].
  rewrite bind_ret_l. unfold print, emit. now rewrite bind_ok.
Qed.

Lemma check_market_on_rows (w : world) (rows : list candle) :
  fetched_rows w = Some rows ->
  check_market w
  = (Print FetchingLine
     :: HttpGet SYMBOL INTERVAL (default "" (API_KEY w)) 50
     :: trace (analyze w (Some (reverse rows))),
     result (analyze w (Some (reverse rows)))).
Proof.
  intros Hr.
  destruct (get_cases w) as [(rows' & Hr' & _ & Hg) | [Hr' _]];
    [| rewrite Hr' in Hr; discriminate Hr].
  rewrite Hr' in Hr. injection Hr as ->.
  unfold check_market, print, emit. rewrite bind_ok, Hg, bind_ok. reflexivity.
Qed.

(** A fetch of two records or more always reaches the decision: the check
    prints the last two RSI values of the closes taken oldest first, and the
    alert it posts, if any, quotes the newest RSI and the close of the
    provider's first record. *)
Theorem check_market_alert (w : world) (rows : list candle) (n : nat) :
  fetched_rows w = Some rows -> length rows = S (S n) ->
  exists prev curr price,
    calculate_rsi (reverse (c_close <$> rows)) RSI_PERIOD !! n = Some prev
    /\ calculate_rsi (reverse (c_close <$> rows)) RSI_PERIOD !! S n = Some curr
    /\ c_close <$> head rows = Some price
    /\ trace (check_market w)
       = [Print FetchingLine;
          HttpGet SYMBOL INTERVAL (default "" (API_KEY w)) 50;
          Print (AnalyzedLine prev curr)]
         ++ trace (crossover w prev curr price)
    /\ result (check_market w) = result (crossover w prev curr price)
    /\ posted (trace (check_market w))
       = (if buy_rule prev curr then [AlertText BUY curr price]
          else if sell_rule prev curr then [AlertText SELL curr price]
          else []).
Proof.
  intros Hr Hlen.
  destruct (analyze_two_or_more w (reverse rows) n)
    as (prev & curr & price & Hp & Hc & Hpr & Ha).
  { now rewrite length_reverse. }
  unfold close_column in Hp, Hc, Hpr. rewrite fmap_reverse in Hp, Hc, Hpr.
  exists prev, curr, price.
  split; [exact Hp | split; [exact Hc | split]].
  - rewrite <- Hpr. rewrite <- fmap_reverse, list_lookup_fmap.
    f_equal. rewrite <- last_reverse, last_lookup, length_reverse, Hlen.
    reflexivity.
  - rewrite (check_market_on_rows w rows Hr), Ha.
    split; [reflexivity | split; [reflexivity |]].
    cbn [trace fst]. change (posted (?a :: ?b :: ?c :: ?t)) with (posted t).
    apply posted_crossover.
Qed.

Lemma check_market_alert_witness :
  exists prev curr price,
    calculate_rsi (reverse (prices [5; 4; 3; 9])) RSI_PERIOD !! 2%nat = Some prev
    /\ posted (trace (check_market
                        (World (env3 "t" "c" "k")
                               (inr (Json (Some (flat <$> [5; 4; 3; 9])) None))
                               None)))
       = (if buy_rule prev curr then [AlertText BUY curr price]
          else if sell_rule prev curr then [AlertText SELL curr price]
          else []).
Proof.
  destruct (check_market_alert
              (World (env3 "t" "c" "k")
                     (inr (Json (Some (flat <$> [5; 4; 3; 9])) None)) None)
              ((fun x => Candle x x x x) <$> prices [5; 4; 3; 9]) 2%nat)
    as (prev & curr & price & Hp & _ & _ & _ & _ & Hposted);
    [reflexivity | reflexivity |].
  exists prev, curr, price. split; [exact Hp | exact Hposted].
Defined.

Lemma requests_crossover (w : world) (prev curr price : float) :
  (length (posted (trace (crossover w prev curr price))) <= 1)%nat
  /\ requests (trace (crossover w prev curr price))
     = HttpPost (default "" (BOT_TOKEN w)) (default "" (CHAT_ID w))
         <$> posted (trace (crossover w prev curr price)).
Proof.
  unfold crossover. rewrite !send_outcome.
  destruct (buy_rule prev curr), (sell_rule prev curr),
    (post_reply w) as [[] |]; cbn; split; try reflexivity; lia.
Qed.

Lemma check_market_one_row (w : world) (c : candle) :
  fetched_rows w = Some [c] ->
  check_market w
  = ([Print FetchingLine; HttpGet SYMBOL INTERVAL (default "" (API_KEY w)) 50],
     inl IndexError).
Proof. intros Hr. now rewrite (check_market_on_rows w [c] Hr). Qed.

Lemma check_market_no_rows (w : world) :
  fetched_rows w = None ->
  (exists diag,
      check_market w
      = ([Print FetchingLine;
          HttpGet SYMBOL INTERVAL (default "" (API_KEY w)) 50;
          Print diag; Print NoDataLine], inr tt))
  \/ (exists e, get_reply w = inl e /\ is_Exception e = false
                /\ check_market w
                   = ([Print FetchingLine;
                       HttpGet SYMBOL INTERVAL (default "" (API_KEY w)) 50],
                      inl e)).
Proof.
  intros Hr.
  destruct (get_cases w)
    as [(rows & Hr' & _) | [_ [(diag & Hg) | (e & He & Hx & Hg)]]].
  - rewrite Hr' in Hr. discriminate Hr.
  - left. exists diag. unfold check_market. now rewrite Hg.
  - right. exists e. split; [exact He | split; [exact Hx |]].
    unfold check_market. now rewrite Hg.
Qed.

(** Whatever the world does, one check makes exactly one GET, first, and then
    at most one POST, which carries the alert text. *)
Theorem check_market_requests (w : world) :
  (length (posted (trace (check_market w))) <= 1)%nat
  /\ requests (trace (check_market w))
     = HttpGet SYMBOL INTERVAL (default "" (API_KEY w)) 50
       :: (HttpPost (default "" (BOT_TOKEN w)) (default "" (CHAT_ID w))
             <$> posted (trace (check_market w))).
Proof.
  destruct (fetched_rows w) as [rows |] eqn:Hr.
  - destruct rows as [| c [| c' rows']].
    + destruct (get_cases w) as [(rows' & Hr' & Hne & _) | [Hr' _]];
        rewrite Hr' in Hr; [injection Hr as -> | discriminate Hr].
      now destruct Hne.
    + rewrite (check_market_one_row w c Hr). cbn. split; [lia | reflexivity].
    + destruct (analyze_two_or_more w (reverse (c :: c' :: rows')) (length rows'))
        as (prev & curr & price & _ & _ & _ & Ha).
      { now rewrite length_reverse. }
      rewrite (check_market_on_rows w _ Hr), Ha.
      destruct (requests_crossover w prev curr price) as [Hlen Hreq].
      cbn [trace fst].
      change (posted (?a :: ?b :: ?c :: ?t)) with (posted t).
      change (requests (?a :: ?b :: ?c :: ?t)) with (b :: requests t).
      split; [exact Hlen | now rewrite Hreq].
  - destruct (check_market_no_rows w Hr) as [(diag & ->) | (e & _ & _ & ->)];
      cbn; split; try reflexivity; lia.
Qed.

(** When nothing is raised past [Exception], the exit code is 1 exactly when
    a secret is missing or empty, or when the provider sent exactly one
    record; in every other case -- failed fetch, failed POST, alert or none --
    it is 0. *)
Theorem exit_code_of_run (w : world) :
  raises_only_exceptions w = true ->
  snd (run w)
  = if configured w
    then match fetched_rows w with Some [_] => 1 | _ => 0 end
    else 1.
Proof.
  unfold raises_only_exceptions. rewrite andb_true_iff. intros [Hg Hp].
  assert (Hpost : forall e, post_reply w = Some e -> is_Exception e = true).
  { intros e He. now rewrite He in Hp. }
  destruct (configured w) eqn:Hc.
  - unfold run. cbn [snd]. destruct (configured_script w Hc) as [_ ->].
    destruct (fetched_rows w) as [rows |] eqn:Hr.
    + destruct rows as [| c [| c' rows']].
      * destruct (get_cases w) as [(rows' & Hr' & Hne & _) | [Hr' _]];
          rewrite Hr' in Hr; [injection Hr as -> | discriminate Hr].
        now destruct Hne.
      * now rewrite (check_market_one_row w c Hr).
      * destruct (analyze_two_or_more w (reverse (c :: c' :: rows')) (length rows'))
          as (prev & curr & price & _ & _ & _ & Ha).
        { now rewrite length_reverse. }
        rewrite (check_market_on_rows w _ Hr), Ha. cbn [result snd].
        now rewrite (crossover_outcome w prev curr price Hpost);
          destruct (buy_rule prev curr), (sell_rule prev curr).
    + destruct (check_market_no_rows w Hr) as [(diag & ->) | (e & He & Hx & _)];
        [reflexivity |].
      rewrite He in Hg. rewrite Hg in Hx. discriminate Hx.
  - unfold configured in Hc. unfold run, script, check_configuration.
    destruct (truthy (BOT_TOKEN w)), (truthy (CHAT_ID w)), (truthy (API_KEY w));
      try discriminate Hc; reflexivity.
Qed.

Lemma exit_code_of_run_witness :
  snd (run (World (env3 "t" "c" "k") (inr (Json (Some [flat 7]) None)) None)) = 1
  /\ snd (run (World (env3 "t" "c" "k")
                     (inr (Json (Some (flat <$> [5; 4; 3; 9])) None))
                     (Some (RequestException "refused")))) = 0.
Proof.
  split.
  - exact (exit_code_of_run
             (World (env3 "t" "c" "k") (inr (Json (Some [flat 7]) None)) None)
             eq_refl).
  - exact (exit_code_of_run
             (World (env3 "t" "c" "k")
                    (inr (Json (Some (flat <$> [5; 4; 3; 9])) None))
                    (Some (RequestException "refused")))
             eq_refl).
Defined.

(** If the closing prices are finite and did not move before the newest
    candle, the check sends no alert whatever the newest candle does: the
    previous RSI is NaN and no rule holds of it. *)
Theorem flat_history_never_alerts (w : world) (rows : list candle) (n : nat) :
  fetched_rows w = Some rows -> length rows = S (S n) ->
  all_finite (reverse (c_close <$> rows)) = true ->
  steady (take (S n) (reverse (c_close <$> rows))) = true ->
  exists curr,
    check_market w
    = ([Print FetchingLine;
        HttpGet SYMBOL INTERVAL (default "" (API_KEY w)) 50;
        Print (AnalyzedLine NaN curr); Print NoCrossoverLine], inr tt).
Proof.
  intros Hr Hlen Hf Hs.
  destruct (analyze_two_or_more w (reverse rows) n)
    as (prev & curr & price & Hp & _ & _ & Ha).
  { now rewrite length_reverse. }
  unfold close_column in Hp. rewrite fmap_reverse in Hp.
  assert (Hnan : calculate_rsi (reverse (c_close <$> rows)) RSI_PERIOD !! n
                 = Some NaN).
  { apply steady_prefix_nan; [reflexivity | exact Hf | | exact Hs].
    rewrite length_reverse, length_fmap. lia. }
  rewrite Hnan in Hp. injection Hp as <-.
  exists curr. rewrite (check_market_on_rows w rows Hr), Ha. reflexivity.
Qed.

Lemma flat_history_never_alerts_witness :
  exists curr,
    check_market (World (env3 "t" "c" "k")
                        (inr (Json (Some (flat <$> [90; 50; 50; 50])) None)) None)
    = ([Print FetchingLine; HttpGet SYMBOL INTERVAL "k" 50;
        Print (AnalyzedLine NaN curr); Print NoCrossoverLine], inr tt).
Proof.
  apply (flat_history_never_alerts
           (World (env3 "t" "c" "k")
                  (inr (Json (Some (flat <$> [90; 50; 50; 50])) None)) None)
           ((fun x => Candle x x x x) <$> prices [90; 50; 50; 50]) 2%nat);
    reflexivity.
Defined.

(** A NaN among the two RSI values satisfies neither rule: the block posts
    nothing and prints "No crossover detected.", whatever the other value. *)
Theorem nan_rsi_posts_nothing (w : world) (prev curr price : float) :
  is_nan prev || is_nan curr = true ->
  crossover w prev curr price = ([Print NoCrossoverLine], inr tt).
Proof.
  intros H. unfold crossover.
  assert (Hb : buy_rule prev curr = false).
  { unfold buy_rule, fgt, fle, flt.
    destruct prev; [reflexivity | ..]; destruct curr; try discriminate H;
      apply andb_false_r. }
  assert (Hs : sell_rule prev curr = false).
  { unfold sell_rule, fge, fle, flt.
    destruct prev; [reflexivity | ..]; destruct curr; try discriminate H;
      apply andb_false_r. }
  now rewrite Hb, Hs.
Qed.

Lemma nan_rsi_posts_nothing_witness :
  crossover (World ∅ (inl KeyError) None) f30 NaN f80
  = ([Print NoCrossoverLine], inr tt).
Proof.
  apply (nan_rsi_posts_nothing (World ∅ (inl KeyError) None) f30 NaN f80).
  reflexivity.
Defined.

End Runs.
